(** * midi-mcp-server: the composition-to-event translation of [src/index.ts]

    The development embeds the [create_midi] request handler, the two
    normalisation passes it runs over the parsed composition, and
    [createMidiFile] with its helpers, and proves the properties the
    specification states about them.

    ECMAScript numbers are IEEE 754 binary64 values.  They are modelled with
    the Standard Library's executable specification of IEEE arithmetic
    ([SpecFloat], precision 53 and maximal exponent 1024), so every
    arithmetic step below rounds, overflows and produces NaN exactly where
    the program does. *)

From Stdlib Require Import ZArith List Ascii String Bool Lia.
From Stdlib Require Import Floats.SpecFloat.
Import ListNotations.

Local Open Scope Z_scope.

(** ** ECMAScript numbers *)

Module Num.

Definition number := spec_float.

Definition prec := 53.
Definition emax := 1024.

Definition NaN : number := S754_nan.

(** The number denoted by an integer literal or by an array index. *)
Definition of_Z (n : Z) : number := binary_normalize prec emax n 0 false.

(** [m * 2 ^ e], for the literals that are not integers. *)
Definition of_dyadic (m e : Z) : number := binary_normalize prec emax m e false.

Definition sub : number -> number -> number := SFsub prec emax.
Definition mul : number -> number -> number := SFmul prec emax.
Definition div : number -> number -> number := SFdiv prec emax.

(** [x === y] on two numbers. *)
Definition strict_eq : number -> number -> bool := SFeqb.

(** [x < y] and [x <= y]. *)
Definition ltb : number -> number -> bool := SFltb.
Definition leb : number -> number -> bool := SFleb.

(** ToBoolean on a number: zero of either sign and NaN are falsy. *)
Definition truthy (x : number) : bool :=
  match x with
  | S754_zero _ | S754_nan => false
  | _ => true
  end.

(** [Math.round]: the closest integer, ties towards +Infinity; integral
    values, infinities and NaN are returned as they are, and a result of
    zero keeps the sign of the argument.  The integer is computed on the
    exact value [m * 2 ^ e] as [floor (x + 1/2)]. *)
Definition Math_round (x : number) : number :=
  match x with
  | S754_finite s m e =>
      if 0 <=? e then x
      else binary_normalize prec emax
             ((2 * cond_Zopp s (Zpos m) + 2 ^ (- e)) / 2 ^ (1 - e)) 0 s
  | _ => x
  end.

(** [Math.floor], again on the exact value. *)
Definition Math_floor (x : number) : number :=
  match x with
  | S754_finite s m e =>
      if 0 <=? e then x
      else binary_normalize prec emax (cond_Zopp s (Zpos m) / 2 ^ (- e)) 0 s
  | _ => x
  end.

(** [x % y]: the remainder of the truncating division, exact, with the
    sign of the dividend. *)
Definition rem (x y : number) : number :=
  match x, y with
  | S754_nan, _ | _, S754_nan => NaN
  | S754_infinity _, _ => NaN
  | _, S754_zero _ => NaN
  | _, S754_infinity _ => x
  | S754_zero _, _ => x
  | S754_finite sx mx ex, S754_finite _ my ey =>
      let ez := Z.min ex ey in
      let X := Zpos (fst (shl_align mx ex ez)) in
      let Y := Zpos (fst (shl_align my ey ez)) in
      binary_normalize prec emax (cond_Zopp sx (Z.rem X Y)) ez sx
  end.

End Num.

Import Num.

Local Open Scope string_scope.

(** ** The composition, as the interfaces of [index.ts] declare it

    An optional field is an [option]; [None] is the absent key, which reads
    as [undefined].  [duration] is declared a string, but the handler tests
    for a number, so both shapes are kept.  [bpm] is declared required, but
    [createMidiFile] guards it with [||], so its absence is modelled too. *)

Inductive Pitch :=
| PitchNumber (n : number)
| PitchName (s : string).

Inductive Duration :=
| DurationString (s : string)
| DurationNumber (n : number).

Record MidiNote := {
  pitch : Pitch;
  beat : option number;
  startTime : option number;
  time : option number;
  duration : Duration;
  velocity : option number;
  channel : option number
}.

Record MidiTrack := {
  name : option string;
  instrument : option number;
  notes : list MidiNote
}.

Record TimeSignature := {
  numerator : number;
  denominator : number
}.

Record MidiComposition := {
  bpm : option number;
  tempo : option number;
  timeSignature : option TimeSignature;
  tracks : list MidiTrack
}.

(** ** Small pieces of ECMAScript semantics *)

(** [x || d] where [x] is an optional number. *)
Definition or_else (x : option number) (d : number) : number :=
  match x with
  | Some v => if truthy v then v else d
  | None => d
  end.

(** ToNumber of an optional number: [undefined] becomes NaN. *)
Definition ToNumber (x : option number) : number :=
  match x with
  | Some v => v
  | None => NaN
  end.

(** ToBoolean on a string: only the empty string is falsy. *)
Definition truthy_string (s : string) : bool :=
  match s with
  | EmptyString => false
  | _ => true
  end.

(** [array.forEach((x, i) => ...)] building one result per element. *)
Fixpoint mapi_from {A B : Type} (f : nat -> A -> B) (i : nat) (l : list A) : list B :=
  match l with
  | [] => []
  | x :: r => f i x :: mapi_from f (S i) r
  end.

Definition mapi {A B : Type} (f : nat -> A -> B) (l : list A) : list B :=
  mapi_from f 0 l.

(** The wait string [`T${ticks}`].  It is kept as the number printed after
    the letter: ToString prints both zeros as 0 and is injective on every
    other number, so only the sign of zero is dropped. *)
Inductive Wait := T (ticks : number).

Definition template_T (ticks : number) : Wait :=
  match ticks with
  | S754_zero _ => T (S754_zero false)
  | _ => T ticks
  end.

Definition ticks_of (w : Wait) : number := let 'T t := w in t.

(** ** The two normalisation passes of the request handler *)

(** Lines 209-220: a numeric duration becomes a token. *)
Definition convertDuration (note : MidiNote) : MidiNote :=
  match duration note with
  | DurationNumber d =>
      let token :=
        if strict_eq d (of_dyadic 1 (-4)) then "64"          (* 0.0625 *)
        else if strict_eq d (of_dyadic 1 (-3)) then "32"     (* 0.125 *)
        else if strict_eq d (of_dyadic 1 (-2)) then "16"     (* 0.25 *)
        else if strict_eq d (of_dyadic 1 (-1)) then "8"      (* 0.5 *)
        else if strict_eq d (of_Z 1) then "4"
        else if strict_eq d (of_Z 2) then "2"
        else "4" in
      {| pitch := pitch note; beat := beat note; startTime := startTime note;
         time := time note; duration := DurationString token;
         velocity := velocity note; channel := channel note |}
  | DurationString _ => note
  end.

(** Lines 227-230: [time] is renamed to [startTime] when the note has no
    [startTime] of its own. *)
Definition convertTime (note : MidiNote) : MidiNote :=
  match time note, startTime note with
  | Some t, None =>
      {| pitch := pitch note; beat := beat note; startTime := Some t;
         time := None; duration := duration note;
         velocity := velocity note; channel := channel note |}
  | _, _ => note
  end.

Definition mapNotes (f : MidiNote -> MidiNote) (c : MidiComposition) : MidiComposition :=
  {| bpm := bpm c; tempo := tempo c; timeSignature := timeSignature c;
     tracks := map (fun track =>
                      {| name := name track; instrument := instrument track;
                         notes := map f (notes track) |}) (tracks c) |}.

(** Lines 206-232: both passes, in the order the handler runs them. *)
Definition normalizeComposition (c : MidiComposition) : MidiComposition :=
  mapNotes convertTime (mapNotes convertDuration c).

(** ** [createMidiFile]: the events handed to the MIDI writer

    The writer is an external library.  A track is the list of the events
    added to it, in the order of the calls. *)

Inductive TrackEvent :=
| TrackNameEvent (text : string)
| TempoEvent (bpm : number)
| TimeSignatureEvent (numerator denominator : number)
| ProgramChangeEvent (instrument channel : number)
| NoteEvent (pitch : Pitch) (duration : Duration)
            (velocity channel : number) (wait : Wait).

Definition Track := list TrackEvent.

Definition noteToMidiNumber (note : Pitch) : Pitch :=
  match note with
  | PitchNumber n => PitchNumber n
  | PitchName s => PitchName s
  end.

Definition convertBeatToWait (beat bpm : number) : Wait :=
  let PPQ := of_Z 128 in
  let adjustedBeat := sub beat (of_Z 1) in
  let ticks := Math_round (div (mul adjustedBeat PPQ) bpm) in
  template_T ticks.

(** Lines 404-410. *)
Definition noteWait (composition : MidiComposition) (note : MidiNote) : Wait :=
  match beat note with
  | Some b => convertBeatToWait b (ToNumber (bpm composition))
  | None =>
      let startTime := or_else (startTime note) (of_Z 0) in
      template_T (Math_round (mul startTime (of_dyadic 1 (-1))))
  end.

Definition trackChannel (trackIndex : nat) : number :=
  rem (of_Z (Z.of_nat trackIndex)) (of_Z 16).

(** Lines 398-420: the event of one note. *)
Definition noteEvent (composition : MidiComposition) (trackIndex : nat)
    (note : MidiNote) : TrackEvent :=
  let pitch := noteToMidiNumber (pitch note) in
  let velocity :=
    match velocity note with Some v => v | None => of_Z 100 end in
  let channel :=
    match channel note with
    | Some ch => rem ch (of_Z 16)
    | None => trackChannel trackIndex
    end in
  NoteEvent pitch (duration note) velocity channel (noteWait composition note).

(** Line 380. *)
Definition compositionTempo (composition : MidiComposition) : number :=
  or_else (bpm composition) (or_else (tempo composition) (of_Z 120)).

(** Lines 372-423: the body of the loop over the tracks. *)
Definition buildTrack (composition : MidiComposition) (trackIndex : nat)
    (trackData : MidiTrack) : Track :=
  let nameEvents :=
    match name trackData with
    | Some s => if truthy_string s then [TrackNameEvent s] else []
    | None => []
    end in
  let timeSignature :=
    match timeSignature composition with
    | Some ts => ts
    | None => {| numerator := of_Z 4; denominator := of_Z 4 |}
    end in
  let programEvents :=
    match instrument trackData with
    | Some i => [ProgramChangeEvent i (trackChannel trackIndex)]
    | None => []
    end in
  (nameEvents
     ++ [TempoEvent (compositionTempo composition)]
     ++ [TimeSignatureEvent (numerator timeSignature) (denominator timeSignature)]
     ++ programEvents
     ++ map (noteEvent composition trackIndex) (notes trackData))%list.

Definition buildTracks (composition : MidiComposition) : list Track :=
  mapi (buildTrack composition) (tracks composition).

(** ** [processMidiComposition]: progress reporting *)

(** [array.slice(i, j)]. *)
Definition slice {A : Type} (array : list A) (i j : nat) : list A :=
  firstn (j - i) (skipn i array).

(** The loop of [chunkArray], from index [i].  [fuel] bounds the number of
    iterations; [chunkArray] gives it the length of the array, which the
    loop never exhausts when [size] is positive ([chunkArray_from_fuel]). *)
Fixpoint chunkArray_from {A : Type} (fuel : nat) (array : list A) (size i : nat)
    : list (list A) :=
  match fuel with
  | O => []
  | S fuel' =>
      if (i <? List.length array)%nat
      then slice array i (i + size) :: chunkArray_from fuel' array size (i + size)
      else []
  end.

Definition chunkArray {A : Type} (array : list A) (size : nat) : list (list A) :=
  chunkArray_from (List.length array) array size 0.

(** Both resolve at once and touch nothing. *)
Definition processNoteChunk (notes : list MidiNote) : unit := tt.
Definition processTrack (track : MidiTrack) : unit := tt.

Inductive ProgressMessage :=
| MsgStarted
| MsgTrack (processedTracks totalTracks : nat)
| MsgCompleted.

Record Notification := {
  progress : number;
  message : ProgressMessage
}.

Definition batchSize : nat := 50.

(** Lines 309-329.  The chunks are slices that are handed to
    [processNoteChunk] and dropped; the composition itself is not written
    to.  What remains is one notification per track. *)
Definition processMidiComposition (composition : MidiComposition) : list Notification :=
  let totalTracks := List.length (tracks composition) in
  mapi (fun i track =>
          let _ :=
            if (batchSize <? List.length (notes track))%nat
            then map processNoteChunk (chunkArray (notes track) batchSize)
            else [processTrack track] in
          let processedTracks := S i in
          {| progress :=
               Math_floor (mul (div (of_Z (Z.of_nat processedTracks))
                                    (of_Z (Z.of_nat totalTracks)))
                               (of_Z 100));
             message := MsgTrack processedTracks totalTracks |})
       (tracks composition).

(** ** The request handler *)

Inductive ErrorCode := MethodNotFound | InvalidParams | InternalError.

(** The texts of the errors the program raises. *)
Inductive ErrorText :=
| UnknownTool (toolName : string)
| EitherMustBeSpecified
| InvalidCompositionFormat
| MidiGenerationFailed.

Record McpError := {
  code : ErrorCode;
  text : ErrorText
}.

(** The response: the confirmation naming the title and the path, or the
    error-flagged text carrying the message of the error that was caught. *)
Inductive Response :=
| Created (title midiFilePath : string)
| IsError (error : McpError).

Inductive CompositionArg :=
| CompositionObject (c : MidiComposition)
| CompositionString (s : string).

Record Args := {
  title : string;
  composition : option CompositionArg;
  composition_file : option string;
  output_path : string
}.

Record Request := {
  toolName : string;
  arguments : Args
}.

(** The file system the handler reads and writes: the text of each readable
    file, the existing directories, where a write succeeds and where a
    directory can be made. *)
Record World := {
  files : string -> option string;
  directories : string -> bool;
  writable : string -> bool;
  creatable : string -> bool
}.

Definition readFileSync (w : World) (path : string) : option string :=
  files w path.

Definition addDirectory (w : World) (dir : string) : World :=
  {| files := files w;
     directories := fun d => if String.eqb d dir then true else directories w d;
     writable := writable w;
     creatable := creatable w |}.

(** The directories of [dirs], outermost first, are made one after the
    other, those that exist being passed over; the first that cannot be
    made stops the call, and those made before it stay. *)
Fixpoint mkdirEach (w : World) (dirs : list string) : bool * World :=
  match dirs with
  | [] => (true, w)
  | d :: rest =>
      if directories w d then mkdirEach w rest
      else if creatable w d then mkdirEach (addDirectory w d) rest
      else (false, w)
  end.

(** [fs.mkdirSync(dir, { recursive: true })]: the missing ancestors of
    [dir] are made as well as [dir]; [false] when the call throws.
    [ancestors] lists the directories above a path, outermost first, by the
    rules of [path]. *)
Definition mkdirSync (ancestors : string -> list string) (w : World) (dir : string)
    : bool * World :=
  mkdirEach w (ancestors dir ++ [dir])%list.

Definition writeFileSync (w : World) (path data : string) : option World :=
  if writable w path
  then Some {| files := fun p => if String.eqb p path then Some data else files w p;
               directories := directories w;
               writable := writable w;
               creatable := creatable w |}
  else None.

(** The outcome of a call: what it returns or throws, the file system it
    leaves, and the notifications it sent, oldest first. *)
Record Outcome (A : Type) := {
  result : A;
  world : World;
  sent : list Notification
}.
Arguments result {A} _.
Arguments world {A} _.
Arguments sent {A} _.

Section Handler.

(** The external collaborators.  [JSON_parse] is [JSON.parse] followed by
    the reading of the value as a [MidiComposition]; [None] stands for a
    syntax error and for a value without the [tracks] and [notes] arrays
    the handler iterates over, both of which end in the same catch.
    [buildFile] is the serialisation by the MIDI writer, [None] when the
    library throws.  The rest is [path] and the environment; [ancestors]
    gives the directories above a path, outermost first. *)
Variable JSON_parse : string -> option MidiComposition.
Variable buildFile : list Track -> option string.
Variable isAbsolute : string -> bool.
Variable join : string -> string -> string.
Variable basename : string -> string.
Variable safeBaseDir : string.
Variable ancestors : string -> list string.

(** Lines 188-239: the composition the handler builds events from, or the
    InvalidParams error of the catch at line 234. *)
Definition loadComposition (w : World) (args : Args) : McpError + MidiComposition :=
  let invalid := {| code := InvalidParams; text := InvalidCompositionFormat |} in
  let inline :=
    match composition args with
    | Some (CompositionString s) => JSON_parse s
    | Some (CompositionObject c) => Some c
    | None => None
    end in
  let parsed :=
    match composition_file args with
    | Some file =>
        if truthy_string file then
          match readFileSync w file with
          | Some fileContent => JSON_parse fileContent
          | None => None
          end
        else inline
    | None => inline
    end in
  match parsed with
  | Some c => inr (normalizeComposition c)
  | None => inl invalid
  end.

(** Lines 431-442: the path to write, [None] when [mkdirSync] throws, and
    the file system left. *)
Definition resolveOutputPath (w : World) (outputPath : string) : option string * World :=
  if isAbsolute outputPath then (Some outputPath, w)
  else
    let midiDir := join safeBaseDir "midi-files" in
    let '(made, w') :=
      if directories w midiDir then (true, w) else mkdirSync ancestors w midiDir in
    if made then (Some (join midiDir (basename outputPath)), w') else (None, w').

Definition createMidiFile (w : World) (title : string)
    (composition : MidiComposition) (outputPath : string)
    : Outcome (McpError + string) :=
  let failed := {| code := InternalError; text := MidiGenerationFailed |} in
  let notifications := processMidiComposition composition in
  let tracks := buildTracks composition in
  let '(resolved, w1) := resolveOutputPath w outputPath in
  match resolved with
  | None => {| result := inl failed; world := w1; sent := notifications |}
  | Some outputFilePath =>
      match buildFile tracks with
      | None => {| result := inl failed; world := w1; sent := notifications |}
      | Some data =>
          match writeFileSync w1 outputFilePath data with
          | Some w2 =>
              {| result := inr outputFilePath; world := w2; sent := notifications |}
          | None => {| result := inl failed; world := w1; sent := notifications |}
          end
      end
  end.

(** ToBoolean on the two arguments tested at line 181. *)
Definition specified_composition (args : Args) : bool :=
  match composition args with
  | Some (CompositionObject _) => true
  | Some (CompositionString s) => truthy_string s
  | None => false
  end.

Definition specified_file (args : Args) : bool :=
  match composition_file args with
  | Some file => truthy_string file
  | None => false
  end.

(** Lines 151-275. *)
Definition handler (w : World) (request : Request) : Outcome Response :=
  if negb (String.eqb (toolName request) "create_midi") then
    {| result := IsError {| code := MethodNotFound;
                            text := UnknownTool (toolName request) |};
       world := w; sent := [] |}
  else
    let args := arguments request in
    let started := {| progress := of_Z 0; message := MsgStarted |} in
    if negb (specified_composition args) && negb (specified_file args) then
      {| result := IsError {| code := InvalidParams; text := EitherMustBeSpecified |};
         world := w; sent := [started] |}
    else
      match loadComposition w args with
      | inl e => {| result := IsError e; world := w; sent := [started] |}
      | inr composition =>
          let out := createMidiFile w (title args) composition (output_path args) in
          match result out with
          | inl e =>
              {| result := IsError e; world := world out;
                 sent := (started :: sent out)%list |}
          | inr midiFilePath =>
              {| result := Created (title args) midiFilePath; world := world out;
                 sent := (started :: sent out
                            ++ [{| progress := of_Z 100; message := MsgCompleted |}])%list |}
          end
      end.

End Handler.

(** ** From a received note to the event written for it

    The handler normalises the composition it loaded and [createMidiFile]
    builds the events from the result.  The following definitions name the
    two steps together, for one note and for a whole composition. *)

Definition resolveNote (c : MidiComposition) (trackIndex : nat) (note : MidiNote)
    : TrackEvent :=
  noteEvent (normalizeComposition c) trackIndex (convertTime (convertDuration note)).

Definition resolvedWait (c : MidiComposition) (note : MidiNote) : Wait :=
  noteWait (normalizeComposition c) (convertTime (convertDuration note)).

Definition resolvedTracks (c : MidiComposition) : list Track :=
  buildTracks (normalizeComposition c).

Definition isNoteEvent (e : TrackEvent) : bool :=
  match e with
  | NoteEvent _ _ _ _ _ => true
  | _ => false
  end.

Definition isTempoEvent (e : TrackEvent) : bool :=
  match e with
  | TempoEvent _ => true
  | _ => false
  end.

Definition eventDuration (e : TrackEvent) : option Duration :=
  match e with
  | NoteEvent _ d _ _ _ => Some d
  | _ => None
  end.

Definition eventVelocity (e : TrackEvent) : option number :=
  match e with
  | NoteEvent _ _ v _ _ => Some v
  | _ => None
  end.

Definition eventChannel (e : TrackEvent) : option number :=
  match e with
  | NoteEvent _ _ _ ch _ => Some ch
  | _ => None
  end.

Definition eventWait (e : TrackEvent) : option Wait :=
  match e with
  | NoteEvent _ _ _ _ w => Some w
  | _ => None
  end.

(** ** The specification's side *)

Definition number_eq_dec (x y : number) : {x = y} + {x <> y}.
Proof.
  decide equality; try apply Bool.bool_dec; try apply Z.eq_dec; apply Pos.eq_dec.
Defined.

Definition durationTokens : list string := ["1"; "2"; "4"; "8"; "16"; "32"; "64"].

(** The reference mapping of the duration normaliser, in the words of the
    specification: a token of the vocabulary is passed through, six numeric
    values have a token of their own, every other number is a quarter note.
    A string outside the vocabulary has no image. *)
Definition durationReference (d : Duration) : option string :=
  match d with
  | DurationString s =>
      if in_dec string_dec s durationTokens then Some s else None
  | DurationNumber x =>
      Some (if number_eq_dec x (of_dyadic 1 (-4)) then "64"
            else if number_eq_dec x (of_dyadic 1 (-3)) then "32"
            else if number_eq_dec x (of_dyadic 1 (-2)) then "16"
            else if number_eq_dec x (of_dyadic 1 (-1)) then "8"
            else if number_eq_dec x (of_Z 1) then "4"
            else if number_eq_dec x (of_Z 2) then "2"
            else "4")
  end.

(** [ticks = round(rawOffset * 0.5)]. *)
Definition offsetWait (rawOffset : number) : Wait :=
  template_T (Math_round (mul rawOffset (of_dyadic 1 (-1)))).

(** [ticks = round(((beat - 1) * PPQ) / tempoBPM)] with PPQ = 128. *)
Definition beatWait (beat tempoBPM : number) : Wait :=
  template_T (Math_round (div (mul (sub beat (of_Z 1)) (of_Z 128)) tempoBPM)).

Definition is_zero (x : number) : bool :=
  match x with
  | S754_zero _ => true
  | _ => false
  end.

(** The tempo of a composition: [bpm] when present and non-zero, otherwise
    the legacy [tempo] when present and non-zero, otherwise 120. *)
Definition tempoReference (c : MidiComposition) : number :=
  match bpm c with
  | Some b =>
      if is_zero b then
        match tempo c with
        | Some t => if is_zero t then of_Z 120 else t
        | None => of_Z 120
        end
      else b
  | None =>
      match tempo c with
      | Some t => if is_zero t then of_Z 120 else t
      | None => of_Z 120
      end
  end.

(** [has_sign s x]: [x] is a zero, a finite number or an infinity of sign
    [s]; in particular it is not NaN. *)
Definition has_sign (s : bool) (x : number) : Prop :=
  match x with
  | S754_zero s' | S754_infinity s' | S754_finite s' _ _ => s' = s
  | S754_nan => False
  end.

(** A wait of zero or more ticks. *)
Definition nonnegative (w : Wait) : Prop := leb (of_Z 0) (ticks_of w) = true.

(** The note [n] with [startTime = t] in place of its legacy [time]. *)
Definition withStartTime (n : MidiNote) (t : number) : MidiNote :=
  {| pitch := pitch n; beat := beat n; startTime := Some t; time := None;
     duration := duration n; velocity := velocity n; channel := channel n |}.

(** A note whose only timing field is [startTime], or [time]. *)
Definition noteAt (p : Pitch) (d : Duration) (startTime time : option number) : MidiNote :=
  {| pitch := p; beat := None; startTime := startTime; time := time;
     duration := d; velocity := None; channel := None |}.

(** ** Concrete inputs used below *)

Definition middleC : Pitch := PitchNumber (of_Z 60).

Definition emptyComposition (bpm tempo : option number) : MidiComposition :=
  {| bpm := bpm; tempo := tempo; timeSignature := None; tracks := [] |}.

(** [{ pitch: 60, startTime: 4, time: 10, duration: "4" }] *)
Definition note_start4_time10 : MidiNote :=
  noteAt middleC (DurationString "4") (Some (of_Z 4)) (Some (of_Z 10)).

(** [{ pitch: 60, time: 10, duration: "4" }] *)
Definition note_time10 : MidiNote :=
  noteAt middleC (DurationString "4") None (Some (of_Z 10)).

(** [{ pitch: 60, startTime: -10, duration: "4" }] *)
Definition note_start_minus10 : MidiNote :=
  noteAt middleC (DurationString "4") (Some (of_Z (-10))) None.

(** [{ pitch: 60, duration: "4", channel: ch }] *)
Definition note_on_channel (ch : number) : MidiNote :=
  {| pitch := middleC; beat := None; startTime := None; time := None;
     duration := DurationString "4"; velocity := None; channel := Some ch |}.

(** [{ pitch: 60, beat: b, duration: 0.5 }] *)
Definition note_on_beat (b : number) : MidiNote :=
  {| pitch := middleC; beat := Some b; startTime := None; time := None;
     duration := DurationNumber (of_dyadic 1 (-1)); velocity := None; channel := None |}.

(** The same request without its inline [composition]. *)
Definition withoutComposition (request : Request) : Request :=
  {| toolName := toolName request;
     arguments := {| title := title (arguments request);
                     composition := None;
                     composition_file := composition_file (arguments request);
                     output_path := output_path (arguments request) |} |}.

Definition rejectedAs (c : ErrorCode) (r : Response) : Prop :=
  exists t, r = IsError {| code := c; text := t |}.

(** A file system with the single file [/tmp/song.json], and collaborators
    that parse exactly its text. *)
Definition oneTrack : MidiComposition :=
  {| bpm := Some (of_Z 120); tempo := None; timeSignature := None;
     tracks := [{| name := Some "Piano"; instrument := Some (of_Z 0);
                   notes := [note_time10; note_start_minus10] |}] |}.

Definition sampleWorld : World :=
  {| files := fun p => if String.eqb p "/tmp/song.json" then Some "song" else None;
     directories := fun _ => false;
     writable := fun _ => true;
     creatable := fun _ => true |}.

Definition sampleParse (s : string) : option MidiComposition :=
  if String.eqb s "song" then Some oneTrack else None.

Definition sampleBuild (t : list Track) : option string := Some "MThd".

Definition sampleAbsolute (p : string) : bool :=
  match p with
  | String "/"%char _ => true
  | _ => false
  end.

Definition sampleJoin (a b : string) : string := a ++ "/" ++ b.

Definition sampleAncestors (p : string) : list string := ["/home"; "/home/user"].

Definition sampleHandler : World -> Request -> Outcome Response :=
  handler sampleParse sampleBuild sampleAbsolute sampleJoin (fun p => p) "/home/user"
    sampleAncestors.

Definition sampleRequest (inline : option CompositionArg) (file : option string) : Request :=
  {| toolName := "create_midi";
     arguments := {| title := "Test"; composition := inline;
                     composition_file := file; output_path := "/tmp/out.mid" |} |}.

(** The composition of the end-to-end example:
    [{ bpm: 120, tracks: [{ name: "Piano", instrument: 0,
       notes: [{ pitch: 60, startTime: 0, duration: "4", velocity: 100 }] }] }] *)
Definition exampleComposition : MidiComposition :=
  {| bpm := Some (of_Z 120); tempo := None; timeSignature := None;
     tracks := [{| name := Some "Piano"; instrument := Some (of_Z 0);
                   notes := [{| pitch := middleC; beat := None;
                                startTime := Some (of_Z 0); time := None;
                                duration := DurationString "4";
                                velocity := Some (of_Z 100); channel := None |}] |}] |}.

(** A track of 120 notes, more than two chunks. *)
Definition longTrack : MidiTrack :=
  {| name := None; instrument := None;
     notes := map (fun k => noteAt (PitchNumber (of_Z (Z.of_nat k))) (DurationString "8")
                              (Some (of_Z (Z.of_nat k))) None)
                  (seq 0 120) |}.

(** ** Further observations on events and numbers *)

Definition isTimeSignatureEvent (e : TrackEvent) : bool :=
  match e with
  | TimeSignatureEvent _ _ => true
  | _ => false
  end.

Definition eventPitch (e : TrackEvent) : option Pitch :=
  match e with
  | NoteEvent p _ _ _ _ => Some p
  | _ => None
  end.

(** A duration the writer's vocabulary knows, or a number still to be
    converted. *)
Definition acceptableDuration (d : Duration) : Prop :=
  match d with
  | DurationString s => In s durationTokens
  | DurationNumber _ => True
  end.

(** The time signature a track is given: the composition's, or 4/4. *)
Definition effectiveTimeSignature (c : MidiComposition) : TimeSignature :=
  match timeSignature c with
  | Some ts => ts
  | None => {| numerator := of_Z 4; denominator := of_Z 4 |}
  end.

(** The request with [arg] as its inline [composition]. *)
Definition withComposition (request : Request) (arg : CompositionArg) : Request :=
  {| toolName := toolName request;
     arguments := {| title := title (arguments request);
                     composition := Some arg;
                     composition_file := composition_file (arguments request);
                     output_path := output_path (arguments request) |} |}.

(** The two notifications the handler sends itself. *)
Definition startedNotification : Notification :=
  {| progress := of_Z 0; message := MsgStarted |}.

Definition completedNotification : Notification :=
  {| progress := of_Z 100; message := MsgCompleted |}.

(** A zero or a finite number: neither NaN nor an infinity. *)
Definition is_finite_number (x : number) : Prop :=
  match x with
  | S754_zero _ | S754_finite _ _ _ => True
  | _ => False
  end.

(** [x] has no fractional part: it is NaN, an infinity, a zero, or
    [m * 2 ^ e] with that product an integer. *)
Definition no_fraction (x : number) : Prop :=
  match x with
  | S754_finite _ m e => (0 <= e)%Z \/ (2 ^ (- e) | Z.pos m)%Z
  | _ => True
  end.

(** * Properties *)

(** ** The number model on the values the specification names *)

Example round_half : Math_round (of_dyadic 5 (-1)) = of_Z 3.
Proof. vm_compute. reflexivity. Qed.

Example round_minus_half : Math_round (of_dyadic (-5) (-1)) = of_Z (-2).
Proof. vm_compute. reflexivity. Qed.

Example round_small_negative : Math_round (of_dyadic (-1) (-1)) = S754_zero true.
Proof. vm_compute. reflexivity. Qed.

Example round_128_120 : Math_round (div (of_Z 128) (of_Z 120)) = of_Z 1.
Proof. vm_compute. reflexivity. Qed.

Example rem_17_16 : rem (of_Z 17) (of_Z 16) = of_Z 1.
Proof. vm_compute. reflexivity. Qed.

Example rem_minus_1_16 : rem (of_Z (-1)) (of_Z 16) = of_Z (-1).
Proof. vm_compute. reflexivity. Qed.

Example rem_fraction : rem (of_dyadic 35 (-1)) (of_Z 16) = of_dyadic 3 (-1).
Proof. vm_compute. reflexivity. Qed.

(** 0.29 * 100 is 28.999999999999996 in binary64. *)
Example floor_29_percent :
  Math_floor (mul (div (of_Z 29) (of_Z 100)) (of_Z 100)) = of_Z 28.
Proof. vm_compute. reflexivity. Qed.

(** [===] against a finite non-zero number is equality of representations. *)
Lemma strict_eq_finite (x : number) (s : bool) (m : positive) (e : Z) :
  strict_eq x (S754_finite s m e) = true <-> x = S754_finite s m e.
Proof.
  unfold strict_eq, SFeqb. split.
  - destruct x as [sx | sx | | sx mx ex]; simpl;
      try (destruct sx; discriminate); try (destruct s; discriminate).
    destruct sx, s; simpl; try discriminate;
      destruct (Z.compare_spec ex e); try discriminate;
      change (Pos.compare_cont Eq mx m) with (Pos.compare mx m);
      destruct (Pos.compare_spec mx m); try discriminate; subst; reflexivity.
  - intros ->. simpl. rewrite Z.compare_refl.
    change (Pos.compare_cont Eq m m) with (Pos.compare m m).
    rewrite Pos.compare_refl. destruct s; reflexivity.
Qed.

Lemma strict_eq_dec_agree (x c : number) (s : bool) (m : positive) (e : Z) :
  c = S754_finite s m e ->
  forall A (a b : A),
    (if strict_eq x c then a else b) = (if number_eq_dec x c then a else b).
Proof.
  intros -> A a b. destruct (number_eq_dec x (S754_finite s m e)) as [E | E].
  - apply strict_eq_finite in E. now rewrite E.
  - destruct (strict_eq x (S754_finite s m e)) eqn:Q; [|reflexivity].
    apply strict_eq_finite in Q. contradiction.
Qed.


(** ** Structure of the normalisation passes *)

Lemma convertDuration_fields (n : MidiNote) :
  pitch (convertDuration n) = pitch n /\ beat (convertDuration n) = beat n /\
  startTime (convertDuration n) = startTime n /\ time (convertDuration n) = time n /\
  velocity (convertDuration n) = velocity n /\ channel (convertDuration n) = channel n.
Proof. unfold convertDuration. destruct (duration n); simpl; repeat split. Qed.

Lemma convertTime_fields (n : MidiNote) :
  pitch (convertTime n) = pitch n /\ beat (convertTime n) = beat n /\
  duration (convertTime n) = duration n /\
  velocity (convertTime n) = velocity n /\ channel (convertTime n) = channel n.
Proof. unfold convertTime. destruct (time n), (startTime n); simpl; repeat split. Qed.

Lemma convertTime_startTime (n : MidiNote) :
  startTime (convertTime n) =
  match startTime n with
  | Some s => Some s
  | None => time n
  end.
Proof.
  unfold convertTime. destruct (time n) eqn:Ht, (startTime n) eqn:Hs; simpl; congruence.
Qed.

Lemma normalizeComposition_bpm (c : MidiComposition) :
  bpm (normalizeComposition c) = bpm c /\ tempo (normalizeComposition c) = tempo c /\
  timeSignature (normalizeComposition c) = timeSignature c.
Proof. repeat split. Qed.

Lemma resolveNote_wait (c : MidiComposition) (k : nat) (n : MidiNote) :
  eventWait (resolveNote c k n) = Some (resolvedWait c n).
Proof. reflexivity. Qed.

(** The wait of a received note, by cases on its timing fields. *)
Lemma resolvedWait_cases (c : MidiComposition) (n : MidiNote) :
  resolvedWait c n =
  match beat n with
  | Some b => convertBeatToWait b (ToNumber (bpm c))
  | None =>
      offsetWait (or_else (match startTime n with
                           | Some s => Some s
                           | None => time n
                           end) (of_Z 0))
  end.
Proof.
  unfold resolvedWait, noteWait.
  destruct (convertTime_fields (convertDuration n)) as (_ & Hb & _).
  destruct (convertDuration_fields n) as (_ & Hb' & Hs & Ht & _).
  rewrite Hb, Hb', convertTime_startTime, Hs, Ht. reflexivity.
Qed.

Lemma offsetWait_falsy (x : number) :
  x <> NaN -> offsetWait (or_else (Some x) (of_Z 0)) = offsetWait x.
Proof.
  intros H. destruct x as [s | s | | s m e]; try reflexivity. now elim H.
Qed.

(** ** Duration normalisation *)

(** C2. Duration normalisation equals the reference mapping: a token of the
    vocabulary is passed through unchanged, 0.0625, 0.125, 0.25, 0.5, 1 and 2
    become "64", "32", "16", "8", "4" and "2", and every other number
    becomes "4"; the event written for the note carries that token. *)
Theorem duration_normalization_reference
    (c : MidiComposition) (trackIndex : nat) (note : MidiNote) (token : string) :
  durationReference (duration note) = Some token ->
  duration (convertDuration note) = DurationString token /\
  eventDuration (resolveNote c trackIndex note) = Some (DurationString token).
Proof.
  intros H.
  assert (D : duration (convertDuration note) = DurationString token).
  { unfold convertDuration.
    destruct (duration note) as [s | d] eqn:E; cbn [durationReference] in H.
    - destruct (in_dec string_dec s durationTokens); congruence.
    - cbn [duration].
      rewrite (strict_eq_dec_agree d (of_dyadic 1 (-4)) _ _ _ eq_refl).
      rewrite (strict_eq_dec_agree d (of_dyadic 1 (-3)) _ _ _ eq_refl).
      rewrite (strict_eq_dec_agree d (of_dyadic 1 (-2)) _ _ _ eq_refl).
      rewrite (strict_eq_dec_agree d (of_dyadic 1 (-1)) _ _ _ eq_refl).
      rewrite (strict_eq_dec_agree d (of_Z 1) _ _ _ eq_refl).
      rewrite (strict_eq_dec_agree d (of_Z 2) _ _ _ eq_refl).
      congruence. }
  split; [exact D|].
  unfold resolveNote, noteEvent; simpl.
  destruct (convertTime_fields (convertDuration note)) as (_ & _ & Hd & _).
  now rewrite Hd, D.
Qed.

Lemma duration_normalization_reference_witness :
  durationReference (duration (note_on_beat (of_Z 2))) = Some "8" /\
  duration (convertDuration (note_on_beat (of_Z 2))) = DurationString "8" /\
  eventDuration (resolveNote (emptyComposition (Some (of_Z 120)) None) 0
                   (note_on_beat (of_Z 2))) = Some (DurationString "8").
Proof.
  split; [reflexivity|].
  apply (duration_normalization_reference
           (emptyComposition (Some (of_Z 120)) None) 0 (note_on_beat (of_Z 2)) "8").
  reflexivity.
Defined.

(** The six numeric values and the fallback, one by one. *)
Example duration_values :
  map durationReference
      [DurationNumber (of_dyadic 1 (-4)); DurationNumber (of_dyadic 1 (-3));
       DurationNumber (of_dyadic 1 (-2)); DurationNumber (of_dyadic 1 (-1));
       DurationNumber (of_Z 1); DurationNumber (of_Z 2);
       DurationNumber (of_Z 3); DurationNumber (of_dyadic 3 (-2));
       DurationString "16"]
  = [Some "64"; Some "32"; Some "16"; Some "8"; Some "4"; Some "2";
     Some "4"; Some "4"; Some "16"].
Proof. vm_compute. reflexivity. Qed.

(** ** Timing resolution *)

(** C1, as the program has it.  The precedence is beat position, then the
    raw [startTime], then the legacy [time]: a beat alone determines the
    wait; without a beat a [startTime] determines it whatever [time] holds;
    [time] is used only when the note has neither; a note with no timing
    field waits 0 ticks. *)
Theorem timing_precedence (c : MidiComposition) (note : MidiNote) :
  (forall b, beat note = Some b ->
     resolvedWait c note = convertBeatToWait b (ToNumber (bpm c))) /\
  (forall s, beat note = None -> startTime note = Some s ->
     resolvedWait c note = offsetWait (or_else (Some s) (of_Z 0))) /\
  (forall t, beat note = None -> startTime note = None -> time note = Some t ->
     resolvedWait c note = offsetWait (or_else (Some t) (of_Z 0))) /\
  (beat note = None -> startTime note = None -> time note = None ->
     resolvedWait c note = T (of_Z 0)).
Proof.
  rewrite resolvedWait_cases. repeat split.
  - intros b ->. reflexivity.
  - intros s -> ->. reflexivity.
  - intros t -> -> ->. reflexivity.
  - intros -> -> ->. reflexivity.
Qed.

Lemma timing_precedence_witness :
  resolvedWait (emptyComposition (Some (of_Z 120)) None) (note_on_beat (of_Z 2))
    = T (of_Z 1) /\
  resolvedWait (emptyComposition (Some (of_Z 120)) None) note_start4_time10
    = T (of_Z 2) /\
  resolvedWait (emptyComposition (Some (of_Z 120)) None) note_time10
    = T (of_Z 5).
Proof.
  pose proof (timing_precedence (emptyComposition (Some (of_Z 120)) None)
                (note_on_beat (of_Z 2))) as (Hb & _).
  pose proof (timing_precedence (emptyComposition (Some (of_Z 120)) None)
                note_start4_time10) as (_ & Hs & _).
  pose proof (timing_precedence (emptyComposition (Some (of_Z 120)) None)
                note_time10) as (_ & _ & Ht & _).
  split; [|split].
  - rewrite (Hb (of_Z 2) eq_refl). vm_compute. reflexivity.
  - rewrite (Hs (of_Z 4) eq_refl eq_refl). vm_compute. reflexivity.
  - rewrite (Ht (of_Z 10) eq_refl eq_refl eq_refl). vm_compute. reflexivity.
Defined.

(** C1, as the claim has it, fails: with [startTime = 4] and [time = 10] and
    no beat, the legacy [time] does not take precedence; the wait is
    round(4 * 0.5) = 2 ticks, not round(10 * 0.5) = 5. *)
Lemma time_does_not_precede_startTime :
  beat note_start4_time10 = None /\
  time note_start4_time10 = Some (of_Z 10) /\
  startTime note_start4_time10 = Some (of_Z 4) /\
  resolvedWait (emptyComposition (Some (of_Z 120)) None) note_start4_time10
    = offsetWait (of_Z 4) /\
  resolvedWait (emptyComposition (Some (of_Z 120)) None) note_start4_time10
    <> offsetWait (of_Z 10).
Proof.
  repeat split; try reflexivity. vm_compute. discriminate.
Qed.

(** C3. The wait of a note with a beat is
    round(((beat - 1) * 128) / bpm), with [bpm] the field of the
    composition; beat 1 waits 0 ticks at every tempo that is a non-zero
    number, and beat 2 at tempo 120 waits 1 tick. *)
Theorem beat_resolution (c : MidiComposition) (trackIndex : nat) (note : MidiNote)
    (b : number) :
  beat note = Some b ->
  eventWait (resolveNote c trackIndex note) = Some (beatWait b (ToNumber (bpm c))) /\
  (forall p, bpm c = Some p -> truthy p = true -> b = of_Z 1 ->
     eventWait (resolveNote c trackIndex note) = Some (T (of_Z 0))) /\
  (bpm c = Some (of_Z 120) -> b = of_Z 2 ->
     eventWait (resolveNote c trackIndex note) = Some (T (of_Z 1))).
Proof.
  intros Hb. rewrite resolveNote_wait, resolvedWait_cases, Hb.
  split; [reflexivity|]. split.
  - intros p -> Hp ->. f_equal. simpl ToNumber.
    destruct p as [s | s | | s m e]; try discriminate; destruct s; reflexivity.
  - intros -> ->. f_equal.
Qed.

Lemma beat_resolution_witness :
  eventWait (resolveNote (emptyComposition (Some (of_Z 120)) None) 0
               (note_on_beat (of_Z 1))) = Some (T (of_Z 0)).
Proof.
  pose proof (beat_resolution (emptyComposition (Some (of_Z 120)) None) 0
                (note_on_beat (of_Z 1)) (of_Z 1) eq_refl) as (_ & H1 & _).
  exact (H1 (of_Z 120) eq_refl eq_refl eq_refl).
Defined.

(** C4. Without a beat the wait is round(rawOffset * 0.5), where the raw
    offset is [startTime], or the renamed [time] when there is no
    [startTime], or 0 when there is neither; a note with [time = t] and no
    [startTime] is written as the same event as that note with
    [startTime = t] instead, and [time = 10] waits 5 ticks.  NaN, which is
    not a JSON number, is left out. *)
Theorem offset_resolution (c : MidiComposition) (trackIndex : nat) :
  (forall note, beat note = None ->
     startTime note <> Some NaN -> time note <> Some NaN ->
     eventWait (resolveNote c trackIndex note) =
     Some (offsetWait match startTime note with
                      | Some s => s
                      | None => match time note with
                                | Some t => t
                                | None => of_Z 0
                                end
                      end)) /\
  (forall note t, startTime note = None -> time note = Some t ->
     resolveNote c trackIndex note = resolveNote c trackIndex (withStartTime note t)) /\
  eventWait (resolveNote c trackIndex note_time10) = Some (T (of_Z 5)).
Proof.
  split; [|split].
  - intros note Hb Hs Ht. rewrite resolveNote_wait, resolvedWait_cases, Hb. f_equal.
    destruct (startTime note) as [s|].
    + apply offsetWait_falsy. congruence.
    + destruct (time note) as [t|]; [|reflexivity].
      apply offsetWait_falsy. congruence.
  - intros note t Hs Ht. unfold resolveNote. f_equal.
    unfold withStartTime, convertDuration, convertTime.
    destruct (duration note) eqn:D; simpl; rewrite ?Hs, ?Ht, ?D; reflexivity.
  - reflexivity.
Qed.

Lemma offset_resolution_witness :
  eventWait (resolveNote (emptyComposition (Some (of_Z 120)) None) 0 note_start_minus10)
    = Some (offsetWait (of_Z (-10))).
Proof.
  pose proof (offset_resolution (emptyComposition (Some (of_Z 120)) None) 0) as (H & _).
  apply (H note_start_minus10); [reflexivity | discriminate | discriminate].
Defined.

(** ** The loop over the tracks *)

Lemma mapi_from_length {A B : Type} (f : nat -> A -> B) (l : list A) (i : nat) :
  List.length (mapi_from f i l) = List.length l.
Proof.
  revert i. induction l as [|x r IH]; intros i; simpl; [reflexivity|].
  now rewrite IH.
Qed.

Lemma mapi_from_nth_error {A B : Type} (f : nat -> A -> B) (l : list A) (i k : nat) :
  nth_error (mapi_from f i l) k = option_map (f (i + k)%nat) (nth_error l k).
Proof.
  revert i k. induction l as [|x r IH]; intros i k.
  - destruct k; reflexivity.
  - destruct k as [|k]; simpl.
    + now rewrite Nat.add_0_r.
    + rewrite IH. now rewrite Nat.add_succ_r.
Qed.

Lemma mapi_nth_error {A B : Type} (f : nat -> A -> B) (l : list A) (k : nat) :
  nth_error (mapi f l) k = option_map (f k) (nth_error l k).
Proof. unfold mapi. now rewrite mapi_from_nth_error. Qed.

Lemma mapi_In {A B : Type} (f : nat -> A -> B) (l : list A) (y : B) :
  In y (mapi f l) -> exists k x, nth_error l k = Some x /\ y = f k x.
Proof.
  intros H. apply In_nth_error in H as [k Hk].
  rewrite mapi_nth_error in Hk.
  destruct (nth_error l k) as [x|] eqn:E; [|discriminate].
  exists k, x. split; [exact E|]. simpl in Hk. congruence.
Qed.

Lemma normalizeComposition_tracks (c : MidiComposition) (k : nat) (trackData : MidiTrack) :
  nth_error (tracks c) k = Some trackData ->
  nth_error (tracks (normalizeComposition c)) k =
  Some {| name := name trackData; instrument := instrument trackData;
          notes := map (fun n => convertTime (convertDuration n)) (notes trackData) |}.
Proof.
  intros H. unfold normalizeComposition, mapNotes; simpl.
  rewrite map_map. rewrite nth_error_map, H. simpl. now rewrite map_map.
Qed.

Lemma filter_note_events (f : MidiNote -> TrackEvent) (l : list MidiNote) :
  (forall n, isNoteEvent (f n) = true) -> filter isNoteEvent (map f l) = map f l.
Proof.
  intros H. induction l as [|n r IH]; simpl; [reflexivity|].
  now rewrite H, IH.
Qed.

Lemma buildTrack_notes (c : MidiComposition) (k : nat) (trackData : MidiTrack) :
  filter isNoteEvent (buildTrack c k trackData) = map (noteEvent c k) (notes trackData).
Proof.
  unfold buildTrack. rewrite !filter_app.
  rewrite filter_note_events by reflexivity.
  destruct (name trackData) as [s|]; [destruct (truthy_string s)|];
    destruct (instrument trackData); reflexivity.
Qed.

Lemma filter_no_tempo (f : MidiNote -> TrackEvent) (l : list MidiNote) :
  (forall n, isTempoEvent (f n) = false) -> filter isTempoEvent (map f l) = [].
Proof.
  intros H. induction l as [|n r IH]; simpl; [reflexivity|].
  now rewrite H, IH.
Qed.

Lemma buildTrack_tempo (c : MidiComposition) (k : nat) (trackData : MidiTrack) :
  filter isTempoEvent (buildTrack c k trackData) = [TempoEvent (compositionTempo c)].
Proof.
  unfold buildTrack. rewrite !filter_app.
  rewrite filter_no_tempo by reflexivity.
  destruct (name trackData) as [s|]; [destruct (truthy_string s)|];
    destruct (instrument trackData); reflexivity.
Qed.

(** ** Chunking *)

Lemma chunkArray_from_concat {A : Type} (array : list A) (size : nat) :
  (0 < size)%nat ->
  forall fuel i, (List.length array - i <= fuel)%nat ->
    List.concat (chunkArray_from fuel array size i) = skipn i array.
Proof.
  intros Hsize. induction fuel as [|fuel IH]; intros i Hfuel; simpl.
  - symmetry. apply skipn_all2. lia.
  - destruct (Nat.ltb_spec i (List.length array)) as [Hi | Hi].
    + simpl. rewrite IH by lia. unfold slice.
      replace (i + size - i)%nat with size by lia.
      rewrite Nat.add_comm, <- skipn_skipn. apply firstn_skipn.
    + symmetry. apply skipn_all2. lia.
Qed.

(** With a positive size the loop ends on its own test: any fuel from the
    number of remaining elements on gives the same chunks. *)
Lemma chunkArray_from_fuel {A : Type} (array : list A) (size : nat) :
  (0 < size)%nat ->
  forall fuel fuel' i,
    (List.length array - i <= fuel)%nat -> (List.length array - i <= fuel')%nat ->
    chunkArray_from fuel array size i = chunkArray_from fuel' array size i.
Proof.
  intros Hsize. induction fuel as [|fuel IH]; intros fuel' i H H'.
  - destruct fuel'; simpl; [reflexivity|].
    destruct (Nat.ltb_spec i (List.length array)); [lia | reflexivity].
  - destruct fuel' as [|fuel']; simpl;
      destruct (Nat.ltb_spec i (List.length array)); try reflexivity; try lia.
    f_equal. apply IH; lia.
Qed.

Lemma chunkArray_concat {A : Type} (array : list A) (size : nat) :
  (0 < size)%nat -> List.concat (chunkArray array size) = array.
Proof.
  intros H. unfold chunkArray. rewrite chunkArray_from_concat by lia. reflexivity.
Qed.

(** C9. The event stream keeps the declared order: there is one output
    track per input track, in the same position, and the note events of
    each are the events of its notes, one per note, in the order declared,
    whatever the number of notes; the chunks of 50 taken from a track are
    its notes in order, so handling them chunk by chunk gives the same
    events in the same order and number. *)
Theorem event_stream_order (c : MidiComposition) :
  List.length (resolvedTracks c) = List.length (tracks c) /\
  (forall k trackData, nth_error (tracks c) k = Some trackData ->
     exists track, nth_error (resolvedTracks c) k = Some track /\
       filter isNoteEvent track = map (resolveNote c k) (notes trackData) /\
       List.length (filter isNoteEvent track) = List.length (notes trackData)) /\
  (forall k trackData, nth_error (tracks c) k = Some trackData ->
     List.concat (chunkArray (notes trackData) batchSize) = notes trackData /\
     List.concat (map (map (resolveNote c k)) (chunkArray (notes trackData) batchSize)) =
     map (resolveNote c k) (notes trackData)).
Proof.
  split; [|split].
  - unfold resolvedTracks, buildTracks, mapi. rewrite mapi_from_length.
    unfold normalizeComposition, mapNotes; simpl. now rewrite !length_map.
  - intros k trackData H.
    apply normalizeComposition_tracks in H.
    unfold resolvedTracks, buildTracks. rewrite mapi_nth_error, H. simpl.
    eexists. split; [reflexivity|].
    rewrite buildTrack_notes. simpl. rewrite map_map.
    split; [reflexivity|]. now rewrite length_map.
  - intros k trackData _.
    assert (E : List.concat (chunkArray (notes trackData) batchSize) = notes trackData)
      by (apply chunkArray_concat; unfold batchSize; lia).
    split; [exact E|]. now rewrite <- concat_map, E.
Qed.

Lemma event_stream_order_witness :
  exists track,
    nth_error (resolvedTracks
                 {| bpm := Some (of_Z 120); tempo := None; timeSignature := None;
                    tracks := [{| name := Some "Piano"; instrument := Some (of_Z 0);
                                  notes := [note_time10; note_start_minus10] |}] |}) 0
      = Some track /\
    List.length (filter isNoteEvent track) = 2%nat.
Proof.
  pose proof (event_stream_order
                {| bpm := Some (of_Z 120); tempo := None; timeSignature := None;
                   tracks := [{| name := Some "Piano"; instrument := Some (of_Z 0);
                                 notes := [note_time10; note_start_minus10] |}] |})
    as (_ & H & _).
  destruct (H 0%nat _ eq_refl) as (track & Ht & _ & Hl).
  exists track. split; [exact Ht | exact Hl].
Defined.

(** C10. The tempo-set event of every track carries [bpm] when it is
    present and non-zero, otherwise the legacy [tempo] when it is present
    and non-zero, otherwise 120; each track has exactly one such event.
    NaN, which is not a JSON number, is left out. *)
Theorem tempo_event_value (c : MidiComposition) (track : Track) :
  bpm c <> Some NaN -> tempo c <> Some NaN ->
  In track (resolvedTracks c) ->
  filter isTempoEvent track = [TempoEvent (tempoReference c)].
Proof.
  intros Hb Ht H. apply mapi_In in H as (k & trackData & _ & ->).
  rewrite buildTrack_tempo. do 2 f_equal.
  unfold compositionTempo, tempoReference.
  destruct (normalizeComposition_bpm c) as (-> & -> & _).
  assert (F : forall x d, x <> Some NaN ->
                or_else x d = match x with
                              | Some v => if is_zero v then d else v
                              | None => d
                              end).
  { intros [[s | s | | s m e]|] d Hx; try reflexivity. now elim Hx. }
  rewrite (F (bpm c)) by assumption. rewrite (F (tempo c)) by assumption.
  destruct (bpm c) as [b|]; [destruct (is_zero b)|]; reflexivity.
Qed.

Lemma tempo_event_value_witness :
  filter isTempoEvent
    (buildTrack (normalizeComposition
                   {| bpm := Some (of_Z 0); tempo := Some (of_Z 90); timeSignature := None;
                      tracks := [{| name := None; instrument := None; notes := [] |}] |})
       0 {| name := None; instrument := None; notes := [] |})
  = [TempoEvent (of_Z 90)].
Proof.
  apply (tempo_event_value
           {| bpm := Some (of_Z 0); tempo := Some (of_Z 90); timeSignature := None;
              tracks := [{| name := None; instrument := None; notes := [] |}] |}).
  - discriminate.
  - discriminate.
  - left. reflexivity.
Defined.


(** ** The request handler *)

Section HandlerProperties.

Variable JSON_parse : string -> option MidiComposition.
Variable buildFile : list Track -> option string.
Variable isAbsolute : string -> bool.
Variable join : string -> string -> string.
Variable basename : string -> string.
Variable safeBaseDir : string.
Variable ancestors : string -> list string.

Local Abbreviation handle :=
  (handler JSON_parse buildFile isAbsolute join basename safeBaseDir ancestors).
Local Abbreviation create :=
  (createMidiFile buildFile isAbsolute join basename safeBaseDir ancestors).

Lemma createMidiFile_code (w : World) (t : string) (c : MidiComposition) (o : string)
    (e : McpError) :
  result (create w t c o) = inl e -> code e = InternalError.
Proof.
  unfold createMidiFile.
  destruct (resolveOutputPath isAbsolute join basename safeBaseDir ancestors w o)
    as [[path|] w1]; simpl.
  - destruct (buildFile (buildTracks c)) as [data|]; simpl.
    + destruct (writeFileSync w1 path data); simpl; [discriminate|].
      intros H. injection H as <-. reflexivity.
    + intros H. injection H as <-. reflexivity.
  - intros H. injection H as <-. reflexivity.
Qed.

(** What [createMidiFile] writes is the serialisation of the tracks built
    from the composition it was given. *)
Lemma createMidiFile_writes (w : World) (t : string) (c : MidiComposition) (o path : string) :
  result (create w t c o) = inr path ->
  exists data,
    buildFile (buildTracks c) = Some data /\
    files (world (create w t c o)) path = Some data.
Proof.
  unfold createMidiFile.
  destruct (resolveOutputPath isAbsolute join basename safeBaseDir ancestors w o)
    as [[out|] w1]; simpl; [|discriminate].
  destruct (buildFile (buildTracks c)) as [data|]; simpl; [|discriminate].
  unfold writeFileSync. destruct (writable w1 out); simpl; [|discriminate].
  intros H. injection H as ->. exists data. split; [reflexivity|].
  now rewrite String.eqb_refl.
Qed.

(** A request is answered with the confirmation only after the tracks
    resolved from the loaded composition were written to the path named. *)
Lemma handler_created (w : World) (request : Request) (t path : string) :
  result (handle w request) = Created t path ->
  exists c data,
    loadComposition JSON_parse w (arguments request) = inr c /\
    buildFile (buildTracks c) = Some data /\
    files (world (handle w request)) path = Some data.
Proof.
  unfold handler.
  destruct (negb (toolName request =? "create_midi")%string); simpl; [discriminate|].
  destruct (negb (specified_composition (arguments request))
            && negb (specified_file (arguments request))); simpl; [discriminate|].
  destruct (loadComposition JSON_parse w (arguments request)) as [e|c]; simpl;
    [discriminate|].
  destruct (result (create w (title (arguments request)) c
                      (output_path (arguments request)))) as [e|p] eqn:R; simpl;
    [discriminate|].
  intros H. injection H as _ ->.
  destruct (createMidiFile_writes _ _ _ _ _ R) as (data & Hb & Hf).
  exists c, data. repeat split; assumption.
Qed.

(** C8. A [create_midi] request with neither [composition] nor
    [composition_file] is answered with the InvalidParams error; the file
    system is left as it was, so no file is written, and the only thing sent
    before the error is the notification of progress 0. *)
Theorem neither_supplied_invalid_params (w : World) (request : Request) :
  toolName request = "create_midi" ->
  composition (arguments request) = None ->
  composition_file (arguments request) = None ->
  result (handle w request)
    = IsError {| code := InvalidParams; text := EitherMustBeSpecified |} /\
  world (handle w request) = w /\
  sent (handle w request) = [{| progress := of_Z 0; message := MsgStarted |}].
Proof.
  intros Hn Hc Hf. unfold handler, specified_composition, specified_file.
  rewrite Hn, Hc, Hf. simpl. repeat split.
Qed.

(** C7, as the program has it.  When a request carries both [composition]
    and a non-empty [composition_file], the inline composition is ignored:
    the outcome is that of the same request without it, the composition is
    the one read from the file, and when the file reads and parses the
    request is not rejected as InvalidParams.  An empty [composition_file]
    counts as absent: the composition is the inline one. *)
Theorem file_takes_precedence (w : World) (request : Request)
    (inline : CompositionArg) (file : string) :
  composition (arguments request) = Some inline ->
  composition_file (arguments request) = Some file ->
  (truthy_string file = true ->
     handle w request = handle w (withoutComposition request) /\
     loadComposition JSON_parse w (arguments request) =
       match match readFileSync w file with
             | Some fileContent => JSON_parse fileContent
             | None => None
             end with
       | Some c => inr (normalizeComposition c)
       | None => inl {| code := InvalidParams; text := InvalidCompositionFormat |}
       end /\
     (forall fileContent c,
        toolName request = "create_midi" ->
        readFileSync w file = Some fileContent -> JSON_parse fileContent = Some c ->
        ~ rejectedAs InvalidParams (result (handle w request)))) /\
  (truthy_string file = false ->
     loadComposition JSON_parse w (arguments request) =
       match match inline with
             | CompositionString s => JSON_parse s
             | CompositionObject c => Some c
             end with
       | Some c => inr (normalizeComposition c)
       | None => inl {| code := InvalidParams; text := InvalidCompositionFormat |}
       end).
Proof.
  intros Hc Hf. split; intros Ht.
  - assert (L : loadComposition JSON_parse w (arguments request) =
                loadComposition JSON_parse w (arguments (withoutComposition request))).
    { unfold loadComposition, withoutComposition; simpl. now rewrite Hf, Ht. }
    split; [|split].
    + unfold handler. rewrite L.
      unfold specified_composition, specified_file, withoutComposition; simpl.
      rewrite Hc, Hf, Ht. simpl. rewrite !andb_false_r.
      destruct inline; reflexivity.
    + unfold loadComposition. now rewrite Hf, Ht.
    + intros fileContent c Hn Hr Hp [t E].
      unfold handler, specified_file in E.
      rewrite Hn, Hf, Ht in E. simpl in E. rewrite andb_false_r in E.
      unfold loadComposition in E. rewrite Hf, Ht, Hr, Hp in E.
      destruct (result (create w (title (arguments request)) (normalizeComposition c)
                          (output_path (arguments request)))) as [e|path] eqn:R;
        simpl in E; [|discriminate].
      apply createMidiFile_code in R. injection E as ->. discriminate.
  - unfold loadComposition. rewrite Hf, Ht, Hc. destruct inline; reflexivity.
Qed.

End HandlerProperties.

Lemma neither_supplied_invalid_params_witness :
  result (sampleHandler sampleWorld (sampleRequest None None))
    = IsError {| code := InvalidParams; text := EitherMustBeSpecified |} /\
  world (sampleHandler sampleWorld (sampleRequest None None)) = sampleWorld.
Proof.
  pose proof (neither_supplied_invalid_params sampleParse sampleBuild sampleAbsolute
                sampleJoin (fun p => p) "/home/user" sampleAncestors sampleWorld
                (sampleRequest None None) eq_refl eq_refl eq_refl) as (H & H' & _).
  split; [exact H | exact H'].
Defined.

Lemma file_takes_precedence_witness :
  sampleHandler sampleWorld
    (sampleRequest (Some (CompositionObject (emptyComposition None None)))
       (Some "/tmp/song.json"))
  = sampleHandler sampleWorld (sampleRequest None (Some "/tmp/song.json")).
Proof.
  pose proof (file_takes_precedence sampleParse sampleBuild sampleAbsolute
                sampleJoin (fun p => p) "/home/user" sampleAncestors sampleWorld
                (sampleRequest (Some (CompositionObject (emptyComposition None None)))
                   (Some "/tmp/song.json"))
                (CompositionObject (emptyComposition None None)) "/tmp/song.json"
                eq_refl eq_refl) as (H & _).
  destruct (H eq_refl) as (E & _). exact E.
Defined.

(** C7, as the claim has it, fails on two requests that supply both
    arguments.  With a [composition_file] that cannot be read the request is
    rejected as InvalidParams although the inline composition is well
    formed; with the empty string as [composition_file] the request is
    accepted but the composition is the inline one. *)
Lemma both_supplied_not_always_from_file :
  rejectedAs InvalidParams
    (result (sampleHandler sampleWorld
               (sampleRequest (Some (CompositionObject oneTrack))
                  (Some "/tmp/missing.json")))) /\
  result (sampleHandler sampleWorld
            (sampleRequest (Some (CompositionObject (emptyComposition None None)))
               (Some "")))
    = Created "Test" "/tmp/out.mid" /\
  loadComposition sampleParse sampleWorld
    (arguments (sampleRequest (Some (CompositionObject (emptyComposition None None)))
                  (Some "")))
    = inr (normalizeComposition (emptyComposition None None)).
Proof.
  split; [|split].
  - exists InvalidCompositionFormat. reflexivity.
  - reflexivity.
  - reflexivity.
Qed.

(** ** Signs through the arithmetic *)

Local Open Scope Z_scope.

Lemma shr_1_nonneg (mrs : shr_record) : 0 <= shr_m mrs -> 0 <= shr_m (shr_1 mrs).
Proof.
  destruct mrs as [m r s]. simpl.
  destruct m as [|p|p]; simpl; try lia; destruct p; simpl; lia.
Qed.

Lemma iter_shr_1_nonneg (p : positive) :
  forall mrs, 0 <= shr_m mrs -> 0 <= shr_m (iter_pos shr_1 p mrs).
Proof.
  induction p as [p IH | p IH |]; intros mrs H; simpl.
  - apply IH, IH, shr_1_nonneg, H.
  - apply IH, IH, H.
  - apply shr_1_nonneg, H.
Qed.

Lemma shr_fexp_nonneg (m e : Z) (l : location) :
  0 <= m -> 0 <= shr_m (fst (shr_fexp prec emax m e l)).
Proof.
  intros H. unfold shr_fexp, shr.
  assert (R : 0 <= shr_m (shr_record_of_loc m l))
    by (destruct l as [|[]]; simpl; exact H).
  destruct (fexp prec emax (Zdigits2 m + e) - e); simpl; try exact R.
  now apply iter_shr_1_nonneg.
Qed.

Lemma round_nearest_even_nonneg (m : Z) (l : location) :
  0 <= m -> 0 <= round_nearest_even m l.
Proof.
  intros H. destruct l as [|[]]; simpl; try lia.
  destruct (Z.even m); lia.
Qed.

Lemma binary_round_aux_sign (s : bool) (m e : Z) (l : location) :
  0 <= m -> has_sign s (binary_round_aux prec emax s m e l).
Proof.
  intros H. unfold binary_round_aux.
  pose proof (shr_fexp_nonneg m e l H) as H1.
  destruct (shr_fexp prec emax m e l) as [mrs' e']. simpl in H1.
  pose proof (shr_fexp_nonneg _ e' loc_Exact
                (round_nearest_even_nonneg _ (loc_of_shr_record mrs') H1)) as H2.
  destruct (shr_fexp prec emax
              (round_nearest_even (shr_m mrs') (loc_of_shr_record mrs')) e' loc_Exact)
    as [mrs'' e'']. simpl in H2.
  destruct (shr_m mrs'') as [|p|p]; simpl; try reflexivity; [|lia].
  destruct (e'' <=? _); simpl; reflexivity.
Qed.

Lemma binary_round_sign (s : bool) (m : positive) (e : Z) :
  has_sign s (binary_round prec emax s m e).
Proof.
  unfold binary_round.
  destruct (shl_align m e (fexp prec emax (Z.pos (digits2_pos m) + e))) as [mz ez].
  apply binary_round_aux_sign. lia.
Qed.

Lemma binary_normalize_nonneg (z e : Z) :
  0 <= z -> has_sign false (binary_normalize prec emax z e false).
Proof.
  intros H. destruct z as [|p|p]; simpl; [reflexivity | apply binary_round_sign | lia].
Qed.

Lemma mul_finite_sign (x : number) (m : positive) (e : Z) :
  has_sign false x -> has_sign false (mul x (S754_finite false m e)).
Proof.
  destruct x as [s | s | | s mx ex]; simpl; intros H; try contradiction; subst;
    try reflexivity.
  apply binary_round_aux_sign. lia.
Qed.

Lemma div_finite_sign (x : number) (m : positive) (e : Z) :
  has_sign false x -> has_sign false (div x (S754_finite false m e)).
Proof.
  destruct x as [s | s | | s mx ex]; simpl; intros H; try contradiction; subst;
    try reflexivity.
  unfold SFdiv_core_binary.
  set (e' := Z.min _ _). set (m' := match ex - e - e' with 0 => _ | _ => _ end).
  assert (Hm : 0 <= m').
  { subst m'. destruct (ex - e - e') as [|p|p]; try lia.
    rewrite Z.shiftl_mul_pow2 by lia. apply Z.mul_nonneg_nonneg; [lia|].
    apply Z.pow_nonneg. lia. }
  pose proof (Z.div_pos m' (Z.pos m) Hm ltac:(lia)) as Hq.
  unfold Z.div in Hq. destruct (Z.div_eucl m' (Z.pos m)) as [q r]. simpl in Hq.
  apply binary_round_aux_sign. exact Hq.
Qed.

Lemma Math_round_sign (x : number) : has_sign false x -> has_sign false (Math_round x).
Proof.
  destruct x as [s | s | | s m e]; cbn [has_sign]; intros H; try contradiction; subst;
    try reflexivity.
  unfold Math_round. destruct (0 <=? e) eqn:E; [reflexivity|].
  apply Z.leb_gt in E.
  apply binary_normalize_nonneg. apply Z.div_pos.
  - pose proof (Z.pow_nonneg 2 (- e)). unfold cond_Zopp. lia.
  - apply Z.pow_pos_nonneg; lia.
Qed.

Lemma template_T_nonnegative (x : number) :
  has_sign false x -> nonnegative (template_T x).
Proof.
  destruct x as [s | s | | s m e]; simpl; intros H; try contradiction; subst;
    reflexivity.
Qed.

Lemma leb_zero_sign (x : number) :
  leb (of_Z 0) x = true -> has_sign false (or_else (Some x) (of_Z 0)).
Proof.
  destruct x as [s | s | | s m e]; simpl; try discriminate; try reflexivity;
    destruct s; try discriminate; reflexivity.
Qed.

(** The digits of a positive number bound it from below. *)
Lemma digits2_pos_lower (m : positive) :
  2 ^ (Z.pos (digits2_pos m) - 1) <= Z.pos m.
Proof.
  induction m as [m IH | m IH |]; simpl digits2_pos.
  - rewrite Pos2Z.inj_succ.
    replace (Z.succ (Z.pos (digits2_pos m)) - 1) with (Z.succ (Z.pos (digits2_pos m) - 1)) by lia.
    rewrite Z.pow_succ_r by lia. lia.
  - rewrite Pos2Z.inj_succ.
    replace (Z.succ (Z.pos (digits2_pos m)) - 1) with (Z.succ (Z.pos (digits2_pos m) - 1)) by lia.
    rewrite Z.pow_succ_r by lia. lia.
  - simpl. lia.
Qed.

Lemma iter_xO_spec (m d : positive) :
  Z.pos (Pos.iter xO m d) = Z.pos m * 2 ^ Z.pos d.
Proof.
  induction d as [|d IH] using Pos.peano_ind.
  - simpl. lia.
  - rewrite Pos.iter_succ, Pos2Z.inj_succ, Z.pow_succ_r by lia.
    rewrite Pos2Z.inj_xO, IH. lia.
Qed.

(** [x - 1] is not negative when [x] is a canonical number at least 1. *)
Lemma sub_one_sign (x : number) :
  valid_binary prec emax x = true -> leb (of_Z 1) x = true ->
  has_sign false (sub x (of_Z 1)).
Proof.
  change (of_Z 1) with (S754_finite false 4503599627370496 (-52)).
  destruct x as [s | s | | s m e]; intros Hv Hle.
  - destruct s; discriminate Hle.
  - destruct s; [discriminate Hle | reflexivity].
  - discriminate Hle.
  - destruct s; [discriminate Hle|].
    assert (He : -52 <= e /\ (e = -52 -> 4503599627370496 <= Z.pos m)).
    { unfold leb, SFleb, SFcompare in Hle.
      destruct (Z.compare_spec (-52) e) as [E | E | E]; try discriminate.
      - split; [lia|]. intros _.
        change (Pos.compare_cont Eq 4503599627370496 m)
          with (Pos.compare 4503599627370496 m) in Hle.
        destruct (Pos.compare_spec 4503599627370496 m); try discriminate; lia.
      - split; lia. }
    destruct He as [He Hm].
    assert (Hm' : 4503599627370496 <= Z.pos m).
    { destruct (Z.eq_dec e (-52)) as [E | E]; [auto|].
      unfold valid_binary, bounded, canonical_mantissa, fexp, emin in Hv.
      apply andb_true_iff in Hv as [Hv _]. apply Z.eqb_eq in Hv.
      pose proof (digits2_pos_lower m) as Hd. unfold prec, emax in Hv.
      replace (Z.pos (digits2_pos m)) with 53 in Hd by lia. exact Hd. }
    unfold sub, SFsub. rewrite Z.min_r by lia.
    apply binary_normalize_nonneg. unfold cond_Zopp.
    unfold shl_align. rewrite Z.sub_diag. cbn [fst].
    destruct (-52 - e) as [|d|d] eqn:D; cbn [fst]; try lia.
    rewrite iter_xO_spec. pose proof (Z.pow_pos_nonneg 2 (Z.pos d)). nia.
Qed.

(** C5, as the program has it.  Nothing clamps the wait; it is zero or more
    ticks when the timing field that is used is not negative: a beat of at
    least 1 with a positive finite [bpm], a [startTime] of at least 0, a
    [time] of at least 0 when there is no [startTime], or no timing field
    at all. *)
Theorem wait_nonnegative_on_nonnegative_input (c : MidiComposition) (note : MidiNote) :
  (forall b m e, beat note = Some b -> bpm c = Some (S754_finite false m e) ->
     valid_binary prec emax b = true -> leb (of_Z 1) b = true ->
     nonnegative (resolvedWait c note)) /\
  (forall s, beat note = None -> startTime note = Some s ->
     leb (of_Z 0) s = true -> nonnegative (resolvedWait c note)) /\
  (forall t, beat note = None -> startTime note = None -> time note = Some t ->
     leb (of_Z 0) t = true -> nonnegative (resolvedWait c note)) /\
  (beat note = None -> startTime note = None -> time note = None ->
     nonnegative (resolvedWait c note)).
Proof.
  rewrite resolvedWait_cases.
  assert (O : forall x, leb (of_Z 0) x = true ->
                nonnegative (offsetWait (or_else (Some x) (of_Z 0)))).
  { intros x Hx. apply template_T_nonnegative, Math_round_sign.
    change (of_dyadic 1 (-1)) with (S754_finite false 4503599627370496 (-53)).
    apply mul_finite_sign, leb_zero_sign, Hx. }
  repeat split.
  - intros b m e -> -> Hv Hle. unfold convertBeatToWait, ToNumber.
    apply template_T_nonnegative, Math_round_sign, div_finite_sign.
    change (of_Z 128) with (S754_finite false 4503599627370496 (-45)).
    apply mul_finite_sign, sub_one_sign; assumption.
  - intros s -> -> Hs. apply O, Hs.
  - intros t -> -> -> Ht. apply O, Ht.
  - intros -> -> ->. reflexivity.
Qed.

Lemma wait_nonnegative_on_nonnegative_input_witness :
  nonnegative (resolvedWait (emptyComposition (Some (of_Z 120)) None)
                 (note_on_beat (of_Z 2))) /\
  nonnegative (resolvedWait (emptyComposition (Some (of_Z 120)) None) note_time10).
Proof.
  split.
  - pose proof (wait_nonnegative_on_nonnegative_input
                  (emptyComposition (Some (of_Z 120)) None) (note_on_beat (of_Z 2)))
      as (H & _).
    apply (H (of_Z 2) 8444249301319680%positive (-46)); reflexivity.
  - pose proof (wait_nonnegative_on_nonnegative_input
                  (emptyComposition (Some (of_Z 120)) None) note_time10)
      as (_ & _ & H & _).
    apply (H (of_Z 10)); reflexivity.
Defined.

(** C5, as the claim has it, fails: [startTime = -10] is resolved to a wait
    of -5 ticks. *)
Lemma negative_startTime_negative_wait :
  resolvedWait (emptyComposition (Some (of_Z 120)) None) note_start_minus10
    = T (of_Z (-5)) /\
  ltb (ticks_of (resolvedWait (emptyComposition (Some (of_Z 120)) None)
                   note_start_minus10)) (of_Z 0) = true /\
  ~ nonnegative (resolvedWait (emptyComposition (Some (of_Z 120)) None)
                   note_start_minus10).
Proof.
  split; [|split].
  - vm_compute. reflexivity.
  - vm_compute. reflexivity.
  - unfold nonnegative. vm_compute. discriminate.
Qed.

(** ** Integers in the number model *)

Lemma digits2_pos_log2 (p : positive) :
  Z.pos (digits2_pos p) = Z.log2 (Z.pos p) + 1.
Proof.
  assert (S : forall q, digits2_pos q = Pos.size q)
    by (induction q as [q IH | q IH |]; simpl; congruence).
  rewrite S. destruct p; simpl; lia.
Qed.

Lemma shl_align_value (m : positive) (e e' : Z) :
  e' <= e -> Z.pos (fst (shl_align m e e')) = Z.pos m * 2 ^ (e - e').
Proof.
  intros H. unfold shl_align. destruct (e' - e) as [|d|d] eqn:D; cbn [fst]; try lia.
  - replace (e - e') with 0 by lia. lia.
  - rewrite iter_xO_spec. f_equal. f_equal. lia.
Qed.

Lemma shl_align_exponent (m : positive) (e e' : Z) :
  e' <= e -> snd (shl_align m e e') = e'.
Proof.
  intros H. unfold shl_align. destruct (e' - e) as [|d|d] eqn:D; cbn [snd]; lia.
Qed.

(** Rounding a mantissa of 53 bits at a representable exponent changes
    nothing. *)
Lemma binary_round_aux_exact (s : bool) (mz : positive) (ez : Z) :
  Z.pos (digits2_pos mz) = 53 -> -1074 <= ez <= 971 ->
  binary_round_aux prec emax s (Z.pos mz) ez loc_Exact = S754_finite s mz ez.
Proof.
  intros Hd He. unfold binary_round_aux, shr_fexp. cbn [Zdigits2]. rewrite Hd.
  assert (F : fexp prec emax (53 + ez) - ez = 0)
    by (unfold fexp, emin, prec, emax; lia).
  rewrite F. cbn [shr shr_record_of_loc shr_m loc_of_shr_record round_nearest_even].
  cbn [Zdigits2]. rewrite Hd, F. cbn [shr shr_record_of_loc shr_m].
  replace (ez <=? emax - prec) with true; [reflexivity|].
  symmetry. apply Z.leb_le. unfold emax, prec. lia.
Qed.

(** A positive integer of at most 53 bits is represented exactly: the
    mantissa is the integer shifted to 53 bits. *)
Lemma binary_round_exact (s : bool) (v : positive) (e : Z) :
  Z.log2 (Z.pos v) + 1 <= 53 ->
  -1074 <= e + (Z.log2 (Z.pos v) + 1) - 53 <= 971 ->
  exists mz,
    binary_round prec emax s v e = S754_finite s mz (e + (Z.log2 (Z.pos v) + 1) - 53) /\
    Z.pos mz = Z.pos v * 2 ^ (53 - (Z.log2 (Z.pos v) + 1)).
Proof.
  rewrite <- digits2_pos_log2. set (d := Z.pos (digits2_pos v)). intros Hd He.
  unfold binary_round. fold d.
  assert (F : fexp prec emax (d + e) = e + d - 53)
    by (unfold fexp, emin, prec, emax; lia).
  rewrite F.
  pose proof (shl_align_value v e (e + d - 53) ltac:(lia)) as Hv.
  pose proof (shl_align_exponent v e (e + d - 53) ltac:(lia)) as Hx.
  destruct (shl_align v e (e + d - 53)) as [mz ez]. cbn [fst snd] in Hv, Hx. subst ez.
  exists mz. split.
  - apply binary_round_aux_exact; [|lia].
    rewrite digits2_pos_log2, Hv.
    rewrite Z.log2_mul_pow2 by lia. fold d in Hd.
    unfold d in *. rewrite digits2_pos_log2. lia.
  - rewrite Hv. f_equal. f_equal. lia.
Qed.

(** Two exact representations of the same value are the same number. *)
Lemma binary_round_shift (s : bool) (v v' : positive) (e j : Z) :
  0 <= j -> Z.pos v' = Z.pos v * 2 ^ j ->
  Z.log2 (Z.pos v) + 1 + j <= 53 ->
  -1074 <= e + (Z.log2 (Z.pos v) + 1) - 53 <= 971 ->
  binary_round prec emax s v' (e - j) = binary_round prec emax s v e.
Proof.
  intros Hj Hv Hd He.
  assert (L : Z.log2 (Z.pos v') = Z.log2 (Z.pos v) + j)
    by (rewrite Hv, Z.log2_mul_pow2 by lia; lia).
  pose proof (Z.log2_nonneg (Z.pos v)) as Hl.
  destruct (binary_round_exact s v e ltac:(lia) He) as (m & -> & Hm).
  destruct (binary_round_exact s v' (e - j) ltac:(lia) ltac:(lia)) as (m' & -> & Hm').
  rewrite L in *. f_equal; [|lia].
  apply Pos2Z.inj. rewrite Hm, Hm', Hv, <- Z.mul_assoc, <- Z.pow_add_r by lia.
  f_equal. f_equal. lia.
Qed.

(** [n % 16] on an integer that a number holds exactly. *)
Lemma rem_of_Z_16 (n : Z) :
  0 <= n < 2 ^ 53 -> rem (of_Z n) (of_Z 16) = of_Z (n mod 16).
Proof.
  intros Hn. destruct n as [|p|p]; [reflexivity | | lia].
  assert (Hl : Z.log2 (Z.pos p) + 1 <= 53)
    by (pose proof (Z.log2_lt_pow2 (Z.pos p) 53 ltac:(lia)); lia).
  pose proof (Z.log2_nonneg (Z.pos p)) as Hl0.
  set (d := Z.log2 (Z.pos p) + 1) in *.
  unfold of_Z at 1. cbn [binary_normalize].
  destruct (binary_round_exact false p 0 Hl ltac:(fold d; lia)) as (mz & -> & Hm).
  fold d in Hm |- *.
  change (of_Z 16) with (S754_finite false 4503599627370496 (-48)).
  cbn [rem]. set (ez := Z.min (0 + d - 53) (-48)).
  rewrite !shl_align_value by (unfold ez; lia).
  set (K := 2 ^ (- ez)).
  assert (HK : 0 < K) by (apply Z.pow_pos_nonneg; unfold ez; lia).
  assert (HX : Z.pos mz * 2 ^ (0 + d - 53 - ez) = Z.pos p * K).
  { rewrite Hm, <- Z.mul_assoc, <- Z.pow_add_r by (unfold ez; lia).
    unfold K. f_equal. f_equal. lia. }
  assert (HY : 4503599627370496 * 2 ^ (-48 - ez) = 16 * K).
  { change 4503599627370496 with (16 * 2 ^ 48).
    rewrite <- Z.mul_assoc, <- Z.pow_add_r by (unfold ez; lia).
    unfold K. f_equal. f_equal. lia. }
  rewrite HX, HY. rewrite Z.rem_mod_nonneg by lia.
  rewrite Z.mul_mod_distr_r by lia. cbn [cond_Zopp].
  pose proof (Z.mod_pos_bound (Z.pos p) 16 ltac:(lia)) as Hr.
  pose proof (Z.mod_le (Z.pos p) 16 ltac:(lia) ltac:(lia)) as Hrp.
  destruct (Z.pos p mod 16) as [|r|r] eqn:R; [reflexivity | | lia].
  unfold of_Z. cbn [binary_normalize].
  assert (Hr4 : Z.log2 (Z.pos r) + 1 <= 4)
    by (pose proof (Z.log2_lt_pow2 (Z.pos r) 4 ltac:(lia)); lia).
  assert (Hrd : Z.log2 (Z.pos r) <= Z.log2 (Z.pos p)) by (apply Z.log2_le_mono; lia).
  pose proof (Z.log2_nonneg (Z.pos r)) as Hr0.
  destruct (Z.pos r * K) as [|q|q] eqn:Q; [lia | | lia].
  cbn [binary_normalize].
  replace ez with (0 - (- ez)) at 1 by lia.
  apply binary_round_shift; try (unfold ez; lia).
  symmetry. exact Q.
Qed.

(** [n % 16] on a negative integer: the remainder keeps the sign, and a
    multiple of 16 gives the negative zero. *)
Lemma rem_of_Z_16_negative (p : positive) :
  Z.pos p < 2 ^ 53 ->
  rem (of_Z (Z.neg p)) (of_Z 16) =
  if Z.pos p mod 16 =? 0 then S754_zero true else of_Z (- (Z.pos p mod 16)).
Proof.
  intros Hn.
  assert (Hl : Z.log2 (Z.pos p) + 1 <= 53)
    by (pose proof (Z.log2_lt_pow2 (Z.pos p) 53 ltac:(lia)); lia).
  pose proof (Z.log2_nonneg (Z.pos p)) as Hl0.
  set (d := Z.log2 (Z.pos p) + 1) in *.
  unfold of_Z at 1. cbn [binary_normalize].
  destruct (binary_round_exact true p 0 Hl ltac:(fold d; lia)) as (mz & -> & Hm).
  fold d in Hm |- *.
  change (of_Z 16) with (S754_finite false 4503599627370496 (-48)).
  cbn [rem]. set (ez := Z.min (0 + d - 53) (-48)).
  rewrite !shl_align_value by (unfold ez; lia).
  set (K := 2 ^ (- ez)).
  assert (HK : 0 < K) by (apply Z.pow_pos_nonneg; unfold ez; lia).
  assert (HX : Z.pos mz * 2 ^ (0 + d - 53 - ez) = Z.pos p * K).
  { rewrite Hm, <- Z.mul_assoc, <- Z.pow_add_r by (unfold ez; lia).
    unfold K. f_equal. f_equal. lia. }
  assert (HY : 4503599627370496 * 2 ^ (-48 - ez) = 16 * K).
  { change 4503599627370496 with (16 * 2 ^ 48).
    rewrite <- Z.mul_assoc, <- Z.pow_add_r by (unfold ez; lia).
    unfold K. f_equal. f_equal. lia. }
  rewrite HX, HY. rewrite Z.rem_mod_nonneg by lia.
  rewrite Z.mul_mod_distr_r by lia. cbn [cond_Zopp].
  pose proof (Z.mod_pos_bound (Z.pos p) 16 ltac:(lia)) as Hr.
  pose proof (Z.mod_le (Z.pos p) 16 ltac:(lia) ltac:(lia)) as Hrp.
  destruct (Z.pos p mod 16) as [|r|r] eqn:R; [reflexivity | | lia].
  cbn [Z.eqb Z.opp]. unfold of_Z. cbn [binary_normalize].
  assert (Hr4 : Z.log2 (Z.pos r) + 1 <= 4)
    by (pose proof (Z.log2_lt_pow2 (Z.pos r) 4 ltac:(lia)); lia).
  assert (Hrd : Z.log2 (Z.pos r) <= Z.log2 (Z.pos p)) by (apply Z.log2_le_mono; lia).
  pose proof (Z.log2_nonneg (Z.pos r)) as Hr0.
  destruct (Z.pos r * K) as [|q|q] eqn:Q; [lia | | lia].
  cbn [Z.opp binary_normalize].
  replace ez with (0 - (- ez)) at 1 by lia.
  apply binary_round_shift; try (unfold ez; lia).
  symmetry. exact Q.
Qed.

(** ** Note defaults *)

(** C6, as the program has it.  The velocity of the event is 100 when the
    note has none and the velocity of the note otherwise.  The channel is
    the track index mod 16 when the note has none, so 1 on track 17.  A
    supplied channel is never rejected: the event carries [channel % 16],
    the remainder that keeps the sign of the channel.  For an integer
    channel that is the channel mod 16 when the channel is not negative,
    and the opposite of (minus the channel) mod 16 when it is negative, so
    a negative channel is not brought into 0..15. *)
Theorem note_defaults (c : MidiComposition) (trackIndex : nat) (note : MidiNote) :
  (velocity note = None ->
     eventVelocity (resolveNote c trackIndex note) = Some (of_Z 100)) /\
  (forall v, velocity note = Some v ->
     eventVelocity (resolveNote c trackIndex note) = Some v) /\
  (channel note = None -> Z.of_nat trackIndex < 2 ^ 53 ->
     eventChannel (resolveNote c trackIndex note)
       = Some (of_Z (Z.of_nat trackIndex mod 16))) /\
  (channel note = None -> trackIndex = 17%nat ->
     eventChannel (resolveNote c trackIndex note) = Some (of_Z 1)) /\
  (forall ch, channel note = Some ch ->
     eventChannel (resolveNote c trackIndex note) = Some (rem ch (of_Z 16))) /\
  (forall z, 0 <= z < 2 ^ 53 -> channel note = Some (of_Z z) ->
     eventChannel (resolveNote c trackIndex note) = Some (of_Z (z mod 16))) /\
  (forall z, - 2 ^ 53 < z < 0 -> channel note = Some (of_Z z) ->
     eventChannel (resolveNote c trackIndex note)
       = Some (if (- z) mod 16 =? 0 then S754_zero true
               else of_Z (- ((- z) mod 16)))).
Proof.
  destruct (convertTime_fields (convertDuration note)) as (_ & _ & _ & Hv & Hc).
  destruct (convertDuration_fields note) as (_ & _ & _ & _ & Hv' & Hc').
  unfold resolveNote, noteEvent, eventVelocity, eventChannel.
  rewrite Hv, Hv', Hc, Hc'. repeat split.
  - intros ->. reflexivity.
  - intros v ->. reflexivity.
  - intros -> Hk. unfold trackChannel. rewrite rem_of_Z_16 by lia. reflexivity.
  - intros -> ->. reflexivity.
  - intros ch ->. reflexivity.
  - intros z Hz ->. rewrite rem_of_Z_16 by lia. reflexivity.
  - intros z Hz ->. destruct z as [|p|p]; try lia.
    rewrite rem_of_Z_16_negative by lia. reflexivity.
Qed.

Lemma note_defaults_witness :
  eventVelocity (resolveNote oneTrack 17 note_time10) = Some (of_Z 100) /\
  eventChannel (resolveNote oneTrack 17 note_time10) = Some (of_Z 1) /\
  eventChannel (resolveNote oneTrack 0 (note_on_channel (of_Z 18))) = Some (of_Z 2) /\
  eventChannel (resolveNote oneTrack 0 (note_on_channel (of_Z (-18)))) = Some (of_Z (-2)).
Proof.
  pose proof (note_defaults oneTrack 17 note_time10) as (Hv & _ & _ & Hc & _).
  pose proof (note_defaults oneTrack 0 (note_on_channel (of_Z 18)))
    as (_ & _ & _ & _ & _ & Hz & _).
  pose proof (note_defaults oneTrack 0 (note_on_channel (of_Z (-18))))
    as (_ & _ & _ & _ & _ & _ & Hn).
  split; [|split; [|split]].
  - apply Hv. reflexivity.
  - apply Hc; reflexivity.
  - apply (Hz 18); [lia | reflexivity].
  - apply (Hn (-18)); [lia | reflexivity].
Defined.

(** C6, as the claim has it, fails: a supplied channel of -1 is resolved
    to -1, not to -1 mod 16 = 15, and a channel of 17.5 to 1.5. *)
Lemma negative_channel_not_wrapped :
  eventChannel (resolveNote oneTrack 0 (note_on_channel (of_Z (-1)))) = Some (of_Z (-1)) /\
  (-1) mod 16 = 15 /\
  eventChannel (resolveNote oneTrack 0 (note_on_channel (of_Z (-1))))
    <> Some (of_Z ((-1) mod 16)) /\
  eventChannel (resolveNote oneTrack 0 (note_on_channel (of_dyadic 35 (-1))))
    = Some (of_dyadic 3 (-1)).
Proof.
  split; [|split; [|split]].
  - vm_compute. reflexivity.
  - reflexivity.
  - vm_compute. discriminate.
  - vm_compute. reflexivity.
Qed.

(** ** The end-to-end example *)

Example example_tracks :
  resolvedTracks exampleComposition =
  [[TrackNameEvent "Piano"; TempoEvent (of_Z 120);
    TimeSignatureEvent (of_Z 4) (of_Z 4);
    ProgramChangeEvent (of_Z 0) (of_Z 0);
    NoteEvent middleC (DurationString "4") (of_Z 100) (of_Z 0) (T (of_Z 0))]].
Proof. vm_compute. reflexivity. Qed.

Example example_response :
  result (sampleHandler sampleWorld
            (sampleRequest (Some (CompositionObject exampleComposition)) None))
    = Created "Test" "/tmp/out.mid" /\
  files (world (sampleHandler sampleWorld
                  (sampleRequest (Some (CompositionObject exampleComposition)) None)))
        "/tmp/out.mid" = Some "MThd".
Proof. split; vm_compute; reflexivity. Qed.

(** A track above the threshold: three chunks of 50, 50 and 20 notes, and
    120 note events in the order of the notes. *)
Example long_track_chunks :
  map (@List.length MidiNote) (chunkArray (notes longTrack) batchSize)
    = [50; 50; 20]%nat /\
  filter isNoteEvent (buildTrack exampleComposition 0 longTrack)
    = map (noteEvent exampleComposition 0) (notes longTrack).
Proof. split; [vm_compute; reflexivity | apply buildTrack_notes]. Qed.

(** * Further properties of the program *)

Local Open Scope nat_scope.

(** ** [chunkArray] *)

Lemma slice_length {A : Type} (array : list A) (i j : nat) :
  List.length (slice array i j) = Nat.min (j - i) (List.length array - i).
Proof. unfold slice. now rewrite length_firstn, length_skipn. Qed.

Lemma chunkArray_from_nth {A : Type} (array : list A) (size : nat) :
  0 < size ->
  forall fuel i j, List.length array - i <= fuel ->
    nth_error (chunkArray_from fuel array size i) j =
    if i + j * size <? List.length array
    then Some (slice array (i + j * size) (i + j * size + size))
    else None.
Proof.
  intros Hsize. induction fuel as [|fuel IH]; intros i j Hfuel; simpl.
  - destruct (Nat.ltb_spec (i + j * size) (List.length array)); [nia|].
    now destruct j.
  - destruct (Nat.ltb_spec i (List.length array)) as [Hi | Hi].
    + destruct j as [|j]; simpl.
      * rewrite Nat.add_0_r.
        destruct (Nat.ltb_spec i (List.length array)); [reflexivity | lia].
      * rewrite IH by lia.
        replace (i + size + j * size) with (i + (size + j * size)) by lia.
        reflexivity.
    + destruct (Nat.ltb_spec (i + j * size) (List.length array)); [nia|].
      now destruct j.
Qed.

Lemma chunkArray_from_length {A : Type} (array : list A) (size : nat) :
  0 < size ->
  forall fuel i, List.length array - i <= fuel ->
    List.length (chunkArray_from fuel array size i) =
    (List.length array - i + (size - 1)) / size.
Proof.
  intros Hsize. induction fuel as [|fuel IH]; intros i Hfuel; simpl.
  - replace (List.length array - i) with 0 by lia. simpl.
    symmetry. apply Nat.div_small. lia.
  - destruct (Nat.ltb_spec i (List.length array)) as [Hi | Hi]; simpl.
    + rewrite IH by lia.
      destruct (Nat.le_gt_cases size (List.length array - i)) as [Hge | Hlt].
      * replace (List.length array - i + (size - 1))
          with (List.length array - (i + size) + (size - 1) + 1 * size) by lia.
        rewrite Nat.div_add by lia. lia.
      * replace (List.length array - (i + size)) with 0 by lia. simpl.
        rewrite (Nat.div_small (size - 1)) by lia.
        apply (Nat.div_unique _ _ _ (List.length array - i - 1)); lia.
    + replace (List.length array - i) with 0 by lia. simpl.
      symmetry. apply Nat.div_small. lia.
Qed.

(** X1. [chunkArray] cuts the array at the multiples of [size]: chunk [j]
    is the elements from index [j * size] up to [(j + 1) * size], there are
    ceil(length / size) chunks, none is empty and none is longer than
    [size]. *)
Theorem chunkArray_chunks {A : Type} (array : list A) (size : nat) :
  0 < size ->
  List.length (chunkArray array size) = (List.length array + (size - 1)) / size /\
  (forall j, j * size < List.length array ->
     nth_error (chunkArray array size) j = Some (slice array (j * size) (j * size + size))) /\
  (forall j chunk, nth_error (chunkArray array size) j = Some chunk ->
     j * size < List.length array /\
     List.length chunk = Nat.min size (List.length array - j * size) /\
     0 < List.length chunk <= size).
Proof.
  intros Hsize. unfold chunkArray. split; [|split].
  - rewrite chunkArray_from_length by lia. now rewrite Nat.sub_0_r.
  - intros j Hj. rewrite chunkArray_from_nth by lia. simpl.
    destruct (Nat.ltb_spec (j * size) (List.length array)); [reflexivity | lia].
  - intros j chunk H. rewrite chunkArray_from_nth in H by lia. simpl in H.
    destruct (Nat.ltb_spec (j * size) (List.length array)) as [Hj | Hj];
      [|discriminate].
    injection H as <-. rewrite slice_length. split; [exact Hj|]. split; lia.
Qed.

Lemma chunkArray_chunks_witness :
  List.length (chunkArray (notes longTrack) batchSize) = 3 /\
  nth_error (chunkArray (notes longTrack) batchSize) 2
    = Some (slice (notes longTrack) 100 150).
Proof.
  destruct (chunkArray_chunks (notes longTrack) batchSize) as (Hl & Hn & _).
  - unfold batchSize. lia.
  - split.
    + rewrite Hl. reflexivity.
    + apply (Hn 2). vm_compute. lia.
Defined.

(** ** The normalisation passes *)

Lemma mapNotes_compose (f g : MidiNote -> MidiNote) (c : MidiComposition) :
  mapNotes f (mapNotes g c) = mapNotes (fun n => f (g n)) c.
Proof.
  unfold mapNotes; simpl. f_equal. rewrite map_map. apply map_ext.
  intros t. simpl. now rewrite map_map.
Qed.

Lemma mapNotes_ext (f g : MidiNote -> MidiNote) (c : MidiComposition) :
  (forall n, f n = g n) -> mapNotes f c = mapNotes g c.
Proof.
  intros H. unfold mapNotes. f_equal. apply map_ext. intros t. f_equal.
  now apply map_ext.
Qed.

Lemma convertDuration_is_string (n : MidiNote) :
  exists s, duration (convertDuration n) = DurationString s.
Proof.
  unfold convertDuration. destruct (duration n) as [s | d] eqn:E.
  - exists s. exact E.
  - eexists. reflexivity.
Qed.

Lemma convertDuration_on_string (n : MidiNote) (s : string) :
  duration n = DurationString s -> convertDuration n = n.
Proof. intros H. unfold convertDuration. now rewrite H. Qed.

Lemma convertTime_idempotent (n : MidiNote) :
  convertTime (convertTime n) = convertTime n.
Proof.
  unfold convertTime at 2. destruct (time n) as [t|] eqn:Ht;
    destruct (startTime n) as [s|] eqn:Hs; try reflexivity;
    unfold convertTime; rewrite ?Ht, ?Hs; reflexivity.
Qed.

Lemma normalize_note_idempotent (n : MidiNote) :
  convertTime (convertDuration (convertTime (convertDuration n)))
  = convertTime (convertDuration n).
Proof.
  destruct (convertDuration_is_string n) as [s Hs].
  destruct (convertTime_fields (convertDuration n)) as (_ & _ & Hd & _).
  rewrite (convertDuration_on_string (convertTime (convertDuration n)) s)
    by congruence.
  apply convertTime_idempotent.
Qed.

(** X2. Normalising a composition that is already normalised changes
    nothing: the two passes of the handler are idempotent together, so the
    tracks built from a normalised composition are those built from the
    composition as received. *)
Theorem normalizeComposition_idempotent (c : MidiComposition) :
  normalizeComposition (normalizeComposition c) = normalizeComposition c /\
  resolvedTracks (normalizeComposition c) = resolvedTracks c.
Proof.
  assert (E : normalizeComposition (normalizeComposition c) = normalizeComposition c).
  { unfold normalizeComposition. rewrite !mapNotes_compose.
    apply mapNotes_ext. intros n. apply normalize_note_idempotent. }
  split; [exact E|]. unfold resolvedTracks. now rewrite E.
Qed.

Lemma normalized_note (c : MidiComposition) (track : MidiTrack) (n : MidiNote) :
  In track (tracks (normalizeComposition c)) -> In n (notes track) ->
  exists trackData n0,
    In trackData (tracks c) /\ In n0 (notes trackData) /\
    n = convertTime (convertDuration n0).
Proof.
  unfold normalizeComposition. rewrite mapNotes_compose. unfold mapNotes; simpl.
  intros Ht Hn. apply in_map_iff in Ht as (trackData & <- & Ht). simpl in Hn.
  apply in_map_iff in Hn as (n0 & <- & Hn). now exists trackData, n0.
Qed.

(** X3. After normalisation every note has a string duration, and a note
    that still has a legacy [time] also has a [startTime]; when every string
    duration received is a token of the vocabulary, every duration handed on
    is one, whatever the numeric durations were. *)
Theorem normalized_notes_invariant (c : MidiComposition) (track : MidiTrack)
    (n : MidiNote) :
  In track (tracks (normalizeComposition c)) -> In n (notes track) ->
  (exists s, duration n = DurationString s) /\
  (time n <> None -> startTime n <> None) /\
  ((forall t0 n0, In t0 (tracks c) -> In n0 (notes t0) ->
      acceptableDuration (duration n0)) ->
   exists s, duration n = DurationString s /\ In s durationTokens).
Proof.
  intros Ht Hn. destruct (normalized_note c track n Ht Hn) as (t0 & n0 & Ht0 & Hn0 & ->).
  destruct (convertTime_fields (convertDuration n0)) as (_ & _ & Hd & _).
  split; [|split].
  - rewrite Hd. apply convertDuration_is_string.
  - unfold convertTime.
    destruct (time (convertDuration n0)) eqn:T, (startTime (convertDuration n0)) eqn:S;
      simpl; congruence.
  - intros Hacc. specialize (Hacc t0 n0 Ht0 Hn0). rewrite Hd.
    unfold convertDuration. destruct (duration n0) as [s | d] eqn:E.
    + exists s. split; [exact E | exact Hacc].
    + cbn [duration]. unfold durationTokens.
      repeat match goal with
             | |- context [if ?b then _ else _] => destruct b
             end; eexists; (split; [reflexivity|]); simpl; tauto.
Qed.

Lemma normalized_notes_invariant_witness :
  exists s,
    duration (convertTime (convertDuration (note_on_beat (of_Z 2)))) = DurationString s /\
    In s durationTokens.
Proof.
  destruct (normalized_notes_invariant
              {| bpm := Some (of_Z 120); tempo := None; timeSignature := None;
                 tracks := [{| name := None; instrument := None;
                               notes := [note_on_beat (of_Z 2)] |}] |}
              {| name := None; instrument := None;
                 notes := [convertTime (convertDuration (note_on_beat (of_Z 2)))] |}
              (convertTime (convertDuration (note_on_beat (of_Z 2))))
              (or_introl eq_refl) (or_introl eq_refl))
    as (_ & _ & H).
  apply H. intros t0 n0 [<- | []] [<- | []]. exact I.
Defined.

(** X4. Normalisation touches nothing but [duration], [startTime] and
    [time]: tempo fields and time signature, the number and order of the
    tracks, their names, instruments and numbers of notes, and the pitch,
    beat, velocity and channel of every note are as received; the event of a
    note carries its pitch, numeric or symbolic, as it is. *)
Theorem normalization_frame (c : MidiComposition) :
  bpm (normalizeComposition c) = bpm c /\
  tempo (normalizeComposition c) = tempo c /\
  timeSignature (normalizeComposition c) = timeSignature c /\
  List.length (tracks (normalizeComposition c)) = List.length (tracks c) /\
  (forall k trackData, nth_error (tracks c) k = Some trackData ->
     exists track,
       nth_error (tracks (normalizeComposition c)) k = Some track /\
       name track = name trackData /\ instrument track = instrument trackData /\
       List.length (notes track) = List.length (notes trackData) /\
       (forall j n, nth_error (notes trackData) j = Some n ->
          exists n',
            nth_error (notes track) j = Some n' /\
            pitch n' = pitch n /\ beat n' = beat n /\
            velocity n' = velocity n /\ channel n' = channel n /\
            eventPitch (noteEvent (normalizeComposition c) k n') = Some (pitch n))).
Proof.
  repeat split.
  - unfold normalizeComposition, mapNotes; simpl. now rewrite !length_map.
  - intros k trackData H. apply normalizeComposition_tracks in H.
    eexists. split; [exact H|]. simpl. repeat split.
    + now rewrite length_map.
    + intros j n Hj. exists (convertTime (convertDuration n)). split.
      * now rewrite nth_error_map, Hj.
      * destruct (convertTime_fields (convertDuration n)) as (Hp & Hb & _ & Hv & Hc).
        destruct (convertDuration_fields n) as (Hp' & Hb' & _ & _ & Hv' & Hc').
        unfold noteEvent, eventPitch, noteToMidiNumber.
        rewrite Hp, Hb, Hv, Hc, Hp', Hb', Hv', Hc'.
        repeat split. now destruct (pitch n).
Qed.

Lemma normalization_frame_witness :
  exists track,
    nth_error (tracks (normalizeComposition oneTrack)) 0 = Some track /\
    name track = Some "Piano" /\ List.length (notes track) = 2.
Proof.
  destruct (normalization_frame oneTrack) as (_ & _ & _ & _ & H).
  destruct (H 0 _ eq_refl) as (track & Ht & Hn & _ & Hl & _).
  exists track. repeat split; assumption.
Defined.

(** ** The layout of a track *)

Lemma resolvedTracks_nth (c : MidiComposition) (k : nat) (trackData : MidiTrack) :
  nth_error (tracks c) k = Some trackData ->
  nth_error (resolvedTracks c) k =
  Some (buildTrack (normalizeComposition c) k
          {| name := name trackData; instrument := instrument trackData;
             notes := map (fun n => convertTime (convertDuration n)) (notes trackData) |}).
Proof.
  intros H. apply normalizeComposition_tracks in H.
  unfold resolvedTracks, buildTracks. now rewrite mapi_nth_error, H.
Qed.

(** The metadata of a track come before its notes; which of them are
    there. *)
Lemma track_header (c : MidiComposition) (k : nat) (trackData : MidiTrack) :
  nth_error (tracks c) k = Some trackData ->
  exists header,
    nth_error (resolvedTracks c) k =
      Some (header ++ map (resolveNote c k) (notes trackData))%list /\
    forallb (fun e => negb (isNoteEvent e)) header = true /\
    filter isTimeSignatureEvent header =
      [TimeSignatureEvent (numerator (effectiveTimeSignature c))
                          (denominator (effectiveTimeSignature c))] /\
    (forall s, In (TrackNameEvent s) header <-> name trackData = Some s /\ s <> "") /\
    (forall i ch, In (ProgramChangeEvent i ch) header <->
                  instrument trackData = Some i /\ ch = trackChannel k) /\
    (2 <= List.length header <= 4)%nat.
Proof.
  intros H. rewrite (resolvedTracks_nth c k trackData H).
  unfold buildTrack; simpl. rewrite map_map. fold (resolveNote c k).
  change (fun x : MidiNote =>
            noteEvent (normalizeComposition c) k (convertTime (convertDuration x)))
    with (resolveNote c k).
  set (nameEvents := match name trackData with
                     | Some s => if truthy_string s then [TrackNameEvent s] else []
                     | None => []
                     end).
  set (programEvents := match instrument trackData with
                        | Some i => [ProgramChangeEvent i (trackChannel k)]
                        | None => []
                        end).
  exists (nameEvents
            ++ [TempoEvent (compositionTempo (normalizeComposition c));
                TimeSignatureEvent (numerator (effectiveTimeSignature c))
                                   (denominator (effectiveTimeSignature c))]
            ++ programEvents)%list.
  split; [|split; [|split; [|split; [|split]]]].
  - unfold effectiveTimeSignature. simpl. rewrite <- !app_assoc. reflexivity.
  - subst nameEvents programEvents.
    destruct (name trackData) as [s|]; [destruct (truthy_string s)|];
      destruct (instrument trackData); reflexivity.
  - subst nameEvents programEvents.
    destruct (name trackData) as [s|]; [destruct (truthy_string s)|];
      destruct (instrument trackData); reflexivity.
  - intros s. subst nameEvents programEvents. split.
    + intros Hin. apply in_app_or in Hin as [Hin | Hin].
      * destruct (name trackData) as [s'|]; [|contradiction].
        destruct s' as [|a s']; simpl in Hin; [contradiction|].
        destruct Hin as [E | []]. injection E as <-. split; [reflexivity | discriminate].
      * simpl in Hin. destruct Hin as [E | [E | Hin]]; try discriminate.
        destruct (instrument trackData); simpl in Hin; [destruct Hin as [E | []]|];
          try discriminate; contradiction.
    + intros [-> Hs]. apply in_or_app. left.
      destruct s; [contradiction|]. simpl. now left.
  - intros i ch. subst nameEvents programEvents. split.
    + intros Hin. apply in_app_or in Hin as [Hin | Hin].
      * destruct (name trackData) as [s'|]; [|contradiction].
        destruct (truthy_string s'); simpl in Hin; [|contradiction].
        destruct Hin as [E | []]. discriminate.
      * simpl in Hin. destruct Hin as [E | [E | Hin]]; try discriminate.
        destruct (instrument trackData); simpl in Hin; [|contradiction].
        destruct Hin as [E | []]. injection E as <- <-. split; reflexivity.
    + intros [-> ->]. apply in_or_app. right. simpl. right. right. now left.
  - subst nameEvents programEvents.
    destruct (name trackData) as [s|]; [destruct (truthy_string s)|];
      destruct (instrument trackData); simpl; lia.
Qed.

(** X5. Every track is laid out in one order: the name event, present
    exactly when the name is a non-empty string; the tempo event, carrying
    [bpm || tempo || 120]; the time-signature event, the composition's or
    4/4; the program change, present exactly when the track has an
    instrument (0 included) and sent on the channel of the track; then one
    event per note, in the order of the notes.  Nothing else is in the
    track. *)
Theorem track_layout (c : MidiComposition) (k : nat) (trackData : MidiTrack) :
  nth_error (tracks c) k = Some trackData ->
  exists nameEvents programEvents,
    nth_error (resolvedTracks c) k =
      Some (nameEvents
              ++ [TempoEvent (compositionTempo c);
                  TimeSignatureEvent (numerator (effectiveTimeSignature c))
                                     (denominator (effectiveTimeSignature c))]
              ++ programEvents
              ++ map (resolveNote c k) (notes trackData))%list /\
    (forall s, name trackData = Some s -> s <> "" -> nameEvents = [TrackNameEvent s]) /\
    (name trackData = None \/ name trackData = Some "" -> nameEvents = []) /\
    (forall i, instrument trackData = Some i ->
       programEvents = [ProgramChangeEvent i (trackChannel k)]) /\
    (instrument trackData = None -> programEvents = []).
Proof.
  intros H. rewrite (resolvedTracks_nth c k trackData H).
  unfold buildTrack; simpl. rewrite map_map.
  change (fun x : MidiNote =>
            noteEvent (normalizeComposition c) k (convertTime (convertDuration x)))
    with (resolveNote c k).
  exists (match name trackData with
          | Some s => if truthy_string s then [TrackNameEvent s] else []
          | None => []
          end),
         (match instrument trackData with
          | Some i => [ProgramChangeEvent i (trackChannel k)]
          | None => []
          end).
  split; [reflexivity|]. split; [|split; [|split]].
  - intros s -> Hs. destruct s; [contradiction | reflexivity].
  - intros [-> | ->]; reflexivity.
  - intros i ->. reflexivity.
  - intros ->. reflexivity.
Qed.

Lemma track_layout_witness :
  nth_error (resolvedTracks exampleComposition) 0 =
    Some ([TrackNameEvent "Piano"]
            ++ [TempoEvent (compositionTempo exampleComposition);
                TimeSignatureEvent (of_Z 4) (of_Z 4)]
            ++ [ProgramChangeEvent (of_Z 0) (trackChannel 0)]
            ++ map (resolveNote exampleComposition 0)
                   [{| pitch := middleC; beat := None;
                       startTime := Some (of_Z 0); time := None;
                       duration := DurationString "4";
                       velocity := Some (of_Z 100); channel := None |}])%list.
Proof.
  destruct (track_layout exampleComposition 0 _ eq_refl)
    as (nameEvents & programEvents & Hn & Hname & _ & Hprog & _).
  rewrite (Hname "Piano" eq_refl ltac:(discriminate)) in Hn.
  rewrite (Hprog (of_Z 0) eq_refl) in Hn.
  exact Hn.
Defined.

(** X6. On track [k] the program change and every note without a channel
    of its own go out on the same channel, [k mod 16], a whole number from
    0 to 15. *)
Theorem track_channel_shared (c : MidiComposition) (k : nat) (trackData : MidiTrack) :
  nth_error (tracks c) k = Some trackData -> (Z.of_nat k < 2 ^ 53)%Z ->
  exists track ch,
    nth_error (resolvedTracks c) k = Some track /\
    ch = of_Z (Z.of_nat (k mod 16)) /\ (k mod 16 < 16)%nat /\
    (forall i ch', In (ProgramChangeEvent i ch') track -> ch' = ch) /\
    (forall n, In n (notes trackData) -> channel n = None ->
       In (resolveNote c k n) track /\ eventChannel (resolveNote c k n) = Some ch).
Proof.
  intros H Hk. destruct (track_header c k trackData H) as (header & Hn & _ & _ & _ & Hp & _).
  assert (E : trackChannel k = of_Z (Z.of_nat (k mod 16))).
  { unfold trackChannel. rewrite rem_of_Z_16 by lia.
    now rewrite Nat2Z.inj_mod. }
  eexists. exists (of_Z (Z.of_nat (k mod 16))). split; [exact Hn|].
  split; [reflexivity|]. split; [apply Nat.mod_upper_bound; lia|]. split.
  - intros i ch' Hin. apply in_app_or in Hin as [Hin | Hin].
    + apply Hp in Hin as [_ ->]. exact E.
    + apply in_map_iff in Hin as (n & Hn' & _). discriminate.
  - intros n Hin Hc. split.
    + apply in_or_app. right. now apply in_map.
    + unfold resolveNote, noteEvent, eventChannel.
      destruct (convertTime_fields (convertDuration n)) as (_ & _ & _ & _ & Hc1).
      destruct (convertDuration_fields n) as (_ & _ & _ & _ & _ & Hc2).
      now rewrite Hc1, Hc2, Hc, E.
Qed.

Lemma track_channel_shared_witness :
  exists track ch,
    nth_error (resolvedTracks exampleComposition) 0 = Some track /\
    ch = of_Z 0 /\
    (forall i ch', In (ProgramChangeEvent i ch') track -> ch' = ch).
Proof.
  destruct (track_channel_shared exampleComposition 0 _ eq_refl)
    as (track & ch & Ht & Hc & _ & Hp & _).
  - simpl. lia.
  - exists track, ch. repeat split; assumption.
Defined.

(** ** Outcomes of the request handler *)

Section HandlerOutcomes.

Variable JSON_parse : string -> option MidiComposition.
Variable buildFile : list Track -> option string.
Variable isAbsolute : string -> bool.
Variable join : string -> string -> string.
Variable basename : string -> string.
Variable safeBaseDir : string.
Variable ancestors : string -> list string.

Local Abbreviation handle :=
  (handler JSON_parse buildFile isAbsolute join basename safeBaseDir ancestors).
Local Abbreviation create :=
  (createMidiFile buildFile isAbsolute join basename safeBaseDir ancestors).
Local Abbreviation load := (loadComposition JSON_parse).
Local Abbreviation resolvePath :=
  (resolveOutputPath isAbsolute join basename safeBaseDir ancestors).

(** The five ways a call of the handler ends. *)
Lemma handler_cases (w : World) (request : Request) :
  let args := arguments request in
  (toolName request <> "create_midi" /\
   handle w request =
     {| result := IsError {| code := MethodNotFound;
                             text := UnknownTool (toolName request) |};
        world := w; sent := [] |}) \/
  (toolName request = "create_midi" /\
   specified_composition args = false /\ specified_file args = false /\
   handle w request =
     {| result := IsError {| code := InvalidParams; text := EitherMustBeSpecified |};
        world := w; sent := [startedNotification] |}) \/
  (toolName request = "create_midi" /\
   (specified_composition args = true \/ specified_file args = true) /\
   load w args = inl {| code := InvalidParams; text := InvalidCompositionFormat |} /\
   handle w request =
     {| result := IsError {| code := InvalidParams; text := InvalidCompositionFormat |};
        world := w; sent := [startedNotification] |}) \/
  (exists c,
     toolName request = "create_midi" /\
     (specified_composition args = true \/ specified_file args = true) /\
     load w args = inr c /\
     result (create w (title args) c (output_path args))
       = inl {| code := InternalError; text := MidiGenerationFailed |} /\
     handle w request =
       {| result := IsError {| code := InternalError; text := MidiGenerationFailed |};
          world := world (create w (title args) c (output_path args));
          sent := (startedNotification
                     :: sent (create w (title args) c (output_path args)))%list |}) \/
  (exists c path,
     toolName request = "create_midi" /\
     (specified_composition args = true \/ specified_file args = true) /\
     load w args = inr c /\
     result (create w (title args) c (output_path args)) = inr path /\
     handle w request =
       {| result := Created (title args) path;
          world := world (create w (title args) c (output_path args));
          sent := (startedNotification
                     :: sent (create w (title args) c (output_path args))
                     ++ [completedNotification])%list |}).
Proof.
  intros args. unfold handler. fold args.
  destruct (String.eqb_spec (toolName request) "create_midi") as [Hn | Hn]; simpl.
  2: { left. split; [exact Hn | reflexivity]. }
  right.
  destruct (specified_composition args) eqn:Sc; simpl.
  - right.
    destruct (load w args) as [e|c] eqn:L.
    + left. assert (e = {| code := InvalidParams; text := InvalidCompositionFormat |}) as ->.
      { unfold loadComposition in L.
        repeat match type of L with
               | context [match ?x with _ => _ end] => destruct x
               end; congruence. }
      repeat split; auto.
    + right.
      destruct (result (create w (title args) c (output_path args))) as [e|path] eqn:R.
      * left. exists c.
        assert (e = {| code := InternalError; text := MidiGenerationFailed |}) as ->.
        { unfold createMidiFile in R.
          repeat match type of R with
                 | context [match ?x with _ => _ end] => destruct x
                 | context [let '(_, _) := ?x in _] => destruct x
                 end; simpl in R; congruence. }
        repeat split; auto.
      * right. exists c, path. repeat split; auto.
  - destruct (specified_file args) eqn:Sf; simpl.
    + right.
      destruct (load w args) as [e|c] eqn:L.
      * left. assert (e = {| code := InvalidParams; text := InvalidCompositionFormat |}) as ->.
        { unfold loadComposition in L.
          repeat match type of L with
                 | context [match ?x with _ => _ end] => destruct x
                 end; congruence. }
        repeat split; auto.
      * right.
        destruct (result (create w (title args) c (output_path args))) as [e|path] eqn:R.
        -- left. exists c.
           assert (e = {| code := InternalError; text := MidiGenerationFailed |}) as ->.
           { unfold createMidiFile in R.
             repeat match type of R with
                    | context [match ?x with _ => _ end] => destruct x
                    | context [let '(_, _) := ?x in _] => destruct x
                    end; simpl in R; congruence. }
           repeat split; auto.
        -- right. exists c, path. repeat split; auto.
    + left. repeat split; auto.
Qed.

Lemma mkdirEach_frame (dirs : list string) :
  forall w,
    files (snd (mkdirEach w dirs)) = files w /\
    writable (snd (mkdirEach w dirs)) = writable w /\
    (forall d, directories w d = true -> directories (snd (mkdirEach w dirs)) d = true) /\
    (forall d, directories (snd (mkdirEach w dirs)) d = true ->
       directories w d = true \/ In d dirs) /\
    (fst (mkdirEach w dirs) = true ->
       forall d, In d dirs -> directories (snd (mkdirEach w dirs)) d = true).
Proof.
  induction dirs as [|x rest IH]; intros w; simpl.
  - repeat split; intros; auto; contradiction.
  - destruct (directories w x) eqn:Dx.
    + destruct (IH w) as (Hf & Hw & Hk & Hn & Hm). repeat split; auto.
      * intros d Hd. destruct (Hn d Hd); auto.
      * intros Hok d [<- | Hin]; auto.
    + destruct (creatable w x); simpl.
      * destruct (IH (addDirectory w x)) as (Hf & Hw & Hk & Hn & Hm).
        assert (A : forall d, directories w d = true ->
                      directories (addDirectory w x) d = true).
        { intros d Hd. simpl. rewrite Hd. now destruct (d =? x)%string. }
        repeat split; auto.
        -- intros d Hd. destruct (Hn d Hd) as [H | H]; auto. simpl in H.
           destruct (String.eqb_spec d x); auto.
        -- intros Hok d [<- | Hin]; auto.
           apply Hk. simpl. now rewrite String.eqb_refl.
      * repeat split; intros; auto; discriminate.
Qed.

Lemma resolveOutputPath_frame (w : World) (o : string) :
  let midiDir := join safeBaseDir "midi-files" in
  files (snd (resolvePath w o)) = files w /\
  writable (snd (resolvePath w o)) = writable w /\
  (forall d, directories w d = true -> directories (snd (resolvePath w o)) d = true) /\
  (forall d, directories (snd (resolvePath w o)) d = true ->
     directories w d = true \/
     (isAbsolute o = false /\ (d = midiDir \/ In d (ancestors midiDir)))) /\
  (forall p, fst (resolvePath w o) = Some p ->
     p = (if isAbsolute o then o else join midiDir (basename o)) /\
     (isAbsolute o = false -> directories (snd (resolvePath w o)) midiDir = true)).
Proof.
  intros midiDir. unfold resolveOutputPath. fold midiDir.
  destruct (isAbsolute o); simpl.
  - repeat split; intros; auto; try discriminate; congruence.
  - assert (I : forall d, In d (ancestors midiDir ++ [midiDir])%list ->
                  d = midiDir \/ In d (ancestors midiDir)).
    { intros d H. apply in_app_or in H as [H | [H | []]]; auto. }
    destruct (directories w midiDir) eqn:D; simpl.
    + repeat split; intros; auto; congruence.
    + unfold mkdirSync.
      destruct (mkdirEach_frame (ancestors midiDir ++ [midiDir])%list w)
        as (Hf & Hw & Hk & Hn & Hm).
      destruct (mkdirEach w (ancestors midiDir ++ [midiDir])%list) as [made w'].
      simpl in *. destruct made; simpl; repeat split; intros; auto;
        try discriminate; try congruence.
      all: try (destruct (Hn d H) as [H' | H']; auto; fail).
      apply Hm; auto. apply in_or_app. right. now left.
Qed.

Lemma createMidiFile_world (w : World) (t : string) (c : MidiComposition) (o : string) :
  let out := create w t c o in
  writable (world out) = writable w /\
  directories (world out) = directories (snd (resolvePath w o)) /\
  (forall e, result out = inl e -> files (world out) = files w) /\
  (forall p, result out = inr p ->
     fst (resolvePath w o) = Some p /\ writable w p = true /\
     (exists data, buildFile (buildTracks c) = Some data /\
                   files (world out) p = Some data) /\
     (forall q, q <> p -> files (world out) q = files w q)).
Proof.
  destruct (resolveOutputPath_frame w o) as (Hf & Hw & _).
  unfold createMidiFile. simpl.
  destruct (resolvePath w o) as [[path|] w1]; simpl in *.
  - destruct (buildFile (buildTracks c)) as [data|]; simpl.
    + unfold writeFileSync. rewrite Hw.
      destruct (writable w path) eqn:W; simpl.
      * repeat split; auto; try discriminate.
        -- congruence.
        -- congruence.
        -- injection H as <-. exists data. split; [reflexivity|].
           now rewrite String.eqb_refl.
        -- intros q Hq. injection H as <-.
           destruct (String.eqb_spec q path); [contradiction|]. now rewrite Hf.
      * repeat split; auto; try discriminate.
    + repeat split; auto; try discriminate.
  - repeat split; auto; try discriminate.
Qed.

(** X7. The answer is MethodNotFound exactly when the tool name is not
    [create_midi]; then nothing was sent, not even the notification of
    progress 0, and the file system is untouched, whatever the arguments. *)
Theorem method_not_found_iff (w : World) (request : Request) :
  (rejectedAs MethodNotFound (result (handle w request))
   <-> toolName request <> "create_midi") /\
  (toolName request <> "create_midi" ->
   result (handle w request)
     = IsError {| code := MethodNotFound; text := UnknownTool (toolName request) |} /\
   world (handle w request) = w /\ sent (handle w request) = []).
Proof.
  destruct (handler_cases w request)
    as [(Hn & E) | [(Hn & _ & _ & E) | [(Hn & _ & _ & E)
       | [(c & Hn & _ & _ & _ & E) | (c & p & Hn & _ & _ & _ & E)]]]];
    rewrite E; simpl; (split; [split|]);
    try (intros [t Ht]; discriminate); try contradiction; auto.
  intros _. eexists. reflexivity.
Qed.

(** X8. An empty string counts as an absent argument: a [create_midi]
    request whose [composition] is absent or the empty string and whose
    [composition_file] is absent or the empty string is answered with the
    InvalidParams error of the request that has neither, and nothing is
    read or written. *)
Theorem empty_strings_count_as_absent (w : World) (request : Request) :
  toolName request = "create_midi" ->
  (composition (arguments request) = None \/
   composition (arguments request) = Some (CompositionString "")) ->
  (composition_file (arguments request) = None \/
   composition_file (arguments request) = Some "") ->
  result (handle w request)
    = IsError {| code := InvalidParams; text := EitherMustBeSpecified |} /\
  world (handle w request) = w /\
  sent (handle w request) = [startedNotification].
Proof.
  intros Hn Hc Hf. unfold handler, specified_composition, specified_file.
  rewrite Hn. destruct Hc as [-> | ->], Hf as [-> | ->]; simpl; repeat split.
Qed.

(** X9. A composition that cannot be loaded is an InvalidParams error and
    nothing else happens: when the file named cannot be read, when its text
    does not parse, or when there is no file and the inline string does not
    parse, the answer is the InvalidParams error, the file system is as it
    was, and only the notification of progress 0 was sent. *)
Theorem unloadable_composition_invalid_params (w : World) (request : Request) :
  toolName request = "create_midi" ->
  (exists file,
     composition_file (arguments request) = Some file /\ file <> "" /\
     (readFileSync w file = None \/
      exists fileContent, readFileSync w file = Some fileContent /\
                          JSON_parse fileContent = None)) \/
  (specified_file (arguments request) = false /\
   exists s, composition (arguments request) = Some (CompositionString s) /\
             s <> "" /\ JSON_parse s = None) ->
  result (handle w request)
    = IsError {| code := InvalidParams; text := InvalidCompositionFormat |} /\
  world (handle w request) = w /\
  sent (handle w request) = [startedNotification].
Proof.
  intros Hn H.
  assert (L : load w (arguments request)
              = inl {| code := InvalidParams; text := InvalidCompositionFormat |} /\
              (specified_composition (arguments request) = true \/
               specified_file (arguments request) = true)).
  { unfold loadComposition, specified_composition, specified_file.
    destruct H as [(file & -> & Hne & Hr) | (Hf & s & -> & Hne & Hp)].
    - destruct file; [contradiction|]. simpl.
      destruct Hr as [-> | (fc & -> & ->)]; auto.
    - unfold specified_file in Hf. destruct s; [contradiction|].
      destruct (composition_file (arguments request)) as [f|]; rewrite ?Hf, Hp; auto. }
  destruct L as [L S].
  destruct (handler_cases w request)
    as [(Hn' & _) | [(_ & Sc & Sf & _) | [(_ & _ & _ & E)
       | [(c & _ & _ & L' & _) | (c & p & _ & _ & L' & _)]]]].
  - contradiction.
  - destruct S; congruence.
  - rewrite E. repeat split.
  - simpl in L'. congruence.
  - simpl in L'. congruence.
Qed.

(** X10. An inline composition given as JSON text is handled exactly as
    the object it parses to: same answer, same file system, same
    notifications. *)
Theorem json_text_as_object (w : World) (request : Request) (s : string)
    (c : MidiComposition) :
  composition (arguments request) = Some (CompositionString s) ->
  s <> "" -> JSON_parse s = Some c ->
  handle w request = handle w (withComposition request (CompositionObject c)).
Proof.
  intros Hc Hs Hp.
  assert (L : load w (arguments request)
              = load w (arguments (withComposition request (CompositionObject c)))).
  { unfold loadComposition, withComposition; simpl. rewrite Hc, Hp. reflexivity. }
  unfold handler. rewrite <- L.
  unfold specified_composition, specified_file, withComposition; simpl.
  rewrite Hc. destruct s; [contradiction|]. reflexivity.
Qed.


(** X12. A confirmation means the file is there.  When the answer is the
    confirmation, it names the title of the request and the path written:
    the output path itself when it is absolute, otherwise its base name
    under [midi-files] in the base directory, which then exists.  That
    path was writable and now holds the serialisation of the tracks built
    from the loaded composition; every other path holds what it held. *)
Theorem confirmation_means_written (w : World) (request : Request)
    (t path : string) :
  result (handle w request) = Created t path ->
  let o := output_path (arguments request) in
  t = title (arguments request) /\
  path = (if isAbsolute o then o
          else join (join safeBaseDir "midi-files") (basename o)) /\
  writable w path = true /\
  (exists c data,
     load w (arguments request) = inr c /\
     buildFile (buildTracks c) = Some data /\
     files (world (handle w request)) path = Some data) /\
  (forall p, p <> path -> files (world (handle w request)) p = files w p) /\
  (isAbsolute o = false ->
   directories (world (handle w request)) (join safeBaseDir "midi-files") = true).
Proof.
  intros H o.
  destruct (handler_cases w request)
    as [(_ & E) | [(_ & _ & _ & E) | [(_ & _ & _ & E)
       | [(c & _ & _ & _ & _ & E) | (c & p & _ & _ & L & R & E)]]]];
    rewrite E in H; simpl in H; try discriminate.
  injection H as <- <-. rewrite E; simpl.
  destruct (createMidiFile_world w (title (arguments request)) c o)
    as (_ & Hd & _ & Hok).
  destruct (Hok p R) as (Hp & Hw & (data & Hb & Hfile) & Hframe).
  destruct (resolveOutputPath_frame w o) as (_ & _ & _ & _ & Hres).
  destruct (Hres p Hp) as (Hpath & Hmk).
  split; [reflexivity|]. split; [exact Hpath|]. split; [exact Hw|].
  split; [exists c, data; auto|]. split; [exact Hframe|].
  intros Hrel. fold o. rewrite Hd. now apply Hmk.
Qed.

(** X13. Completion is announced exactly on success.  Every [create_midi]
    request first sends the notification of progress 0; the notification of
    progress 100 is sent if and only if the answer is the confirmation, and
    then it comes last, after one notification per track. *)
Theorem completion_iff_created (w : World) (request : Request) :
  toolName request = "create_midi" ->
  hd_error (sent (handle w request)) = Some startedNotification /\
  (In MsgCompleted (map message (sent (handle w request)))
   <-> exists t path, result (handle w request) = Created t path) /\
  (forall t path, result (handle w request) = Created t path ->
     exists c,
       load w (arguments request) = inr c /\
       sent (handle w request)
         = (startedNotification :: processMidiComposition c
              ++ [completedNotification])%list /\
       List.length (sent (handle w request)) = List.length (tracks c) + 2).
Proof.
  intros Hn.
  assert (P : forall c, ~ In MsgCompleted (map message (processMidiComposition c))).
  { intros c Hin. apply in_map_iff in Hin as (n & Hm & Hin).
    unfold processMidiComposition in Hin. apply mapi_In in Hin as (k & t & _ & ->).
    discriminate. }
  assert (S : forall t c o, sent (create w t c o) = processMidiComposition c).
  { intros t c o. unfold createMidiFile.
    destruct (resolvePath w o) as [[p|] w1]; [|reflexivity].
    destruct (buildFile (buildTracks c)); simpl; [|reflexivity].
    destruct (writeFileSync w1 p s); reflexivity. }
  destruct (handler_cases w request)
    as [(Hn' & _) | [(_ & _ & _ & E) | [(_ & _ & _ & E)
       | [(c & _ & _ & _ & _ & E) | (c & p & _ & _ & L & _ & E)]]]];
    [contradiction | | | |]; rewrite E; simpl; rewrite ?S.
  - split; [reflexivity|]. split; [split|].
    + intros [H | []]. discriminate.
    + intros (t & p & H). discriminate.
    + intros t p H. discriminate.
  - split; [reflexivity|]. split; [split|].
    + intros [H | []]. discriminate.
    + intros (t & p & H). discriminate.
    + intros t p H. discriminate.
  - split; [reflexivity|]. split; [split|].
    + intros [H | H]; [discriminate | elim (P c H)].
    + intros (t & p & H). discriminate.
    + intros t p H. discriminate.
  - split; [reflexivity|]. split; [split|].
    + intros _. eauto.
    + intros _. right. rewrite map_app. apply in_or_app. right. now left.
    + intros t p' _. exists c. split; [exact L|]. split; [reflexivity|].
      simpl. rewrite length_app. unfold processMidiComposition, mapi.
      rewrite mapi_from_length. simpl. lia.
Qed.

End HandlerOutcomes.

Lemma method_not_found_iff_witness :
  sent (sampleHandler sampleWorld
          {| toolName := "list_midi";
             arguments := arguments (sampleRequest None (Some "/tmp/song.json")) |})
    = [].
Proof.
  destruct (method_not_found_iff sampleParse sampleBuild sampleAbsolute sampleJoin
              (fun p => p) "/home/user" sampleAncestors sampleWorld
              {| toolName := "list_midi";
                 arguments := arguments (sampleRequest None (Some "/tmp/song.json")) |})
    as (_ & H).
  destruct H as (_ & _ & Hs); [discriminate | exact Hs].
Defined.

Lemma empty_strings_count_as_absent_witness :
  result (sampleHandler sampleWorld
            (sampleRequest (Some (CompositionString "")) (Some "")))
    = IsError {| code := InvalidParams; text := EitherMustBeSpecified |}.
Proof.
  destruct (empty_strings_count_as_absent sampleParse sampleBuild sampleAbsolute
              sampleJoin (fun p => p) "/home/user" sampleAncestors sampleWorld
              (sampleRequest (Some (CompositionString "")) (Some ""))
              eq_refl (or_intror eq_refl) (or_intror eq_refl)) as (H & _).
  exact H.
Defined.

Lemma unloadable_composition_invalid_params_witness :
  result (sampleHandler sampleWorld (sampleRequest None (Some "/tmp/missing.json")))
    = IsError {| code := InvalidParams; text := InvalidCompositionFormat |} /\
  world (sampleHandler sampleWorld (sampleRequest None (Some "/tmp/missing.json")))
    = sampleWorld.
Proof.
  destruct (unloadable_composition_invalid_params sampleParse sampleBuild sampleAbsolute
              sampleJoin (fun p => p) "/home/user" sampleAncestors sampleWorld
              (sampleRequest None (Some "/tmp/missing.json")) eq_refl)
    as (H & H' & _).
  - left. exists "/tmp/missing.json". split; [reflexivity|]. split; [discriminate|].
    left. reflexivity.
  - split; [exact H | exact H'].
Defined.

Lemma json_text_as_object_witness :
  sampleHandler sampleWorld (sampleRequest (Some (CompositionString "song")) None)
  = sampleHandler sampleWorld (sampleRequest (Some (CompositionObject oneTrack)) None).
Proof.
  apply (json_text_as_object sampleParse sampleBuild sampleAbsolute sampleJoin
           (fun p => p) "/home/user" sampleAncestors sampleWorld
           (sampleRequest (Some (CompositionString "song")) None) "song" oneTrack).
  - reflexivity.
  - discriminate.
  - reflexivity.
Defined.


Lemma confirmation_means_written_witness :
  files (world (sampleHandler sampleWorld
                  (sampleRequest (Some (CompositionObject exampleComposition)) None)))
        "/tmp/song.json" = Some "song".
Proof.
  destruct (confirmation_means_written sampleParse sampleBuild sampleAbsolute sampleJoin
              (fun p => p) "/home/user" sampleAncestors sampleWorld
              (sampleRequest (Some (CompositionObject exampleComposition)) None)
              "Test" "/tmp/out.mid" eq_refl) as (_ & _ & _ & _ & H & _).
  unfold sampleHandler. rewrite (H "/tmp/song.json"); [reflexivity | discriminate].
Defined.

Lemma completion_iff_created_witness :
  hd_error (sent (sampleHandler sampleWorld
                    (sampleRequest (Some (CompositionObject exampleComposition)) None)))
    = Some startedNotification /\
  List.length (sent (sampleHandler sampleWorld
                       (sampleRequest (Some (CompositionObject exampleComposition)) None)))
    = 3.
Proof.
  destruct (completion_iff_created sampleParse sampleBuild sampleAbsolute sampleJoin
              (fun p => p) "/home/user" sampleAncestors sampleWorld
              (sampleRequest (Some (CompositionObject exampleComposition)) None)
              eq_refl) as (H & _ & H').
  split; [exact H|].
  destruct (H' "Test" "/tmp/out.mid" eq_refl) as (c & Hc & _ & Hl).
  unfold sampleHandler. rewrite Hl. vm_compute in Hc. injection Hc as <-. reflexivity.
Defined.


(** ** Numbers the program computes *)

Local Open Scope Z_scope.

Lemma div_nan (x : number) : div x NaN = NaN.
Proof. destruct x; reflexivity. Qed.

(** X14. The beat path does not use the tempo fallback.  When the
    composition has no [bpm], every note with a beat waits NaN ticks,
    whatever the beat and whatever the legacy [tempo], although the tempo
    event of the track carries [tempo || 120]; when [bpm] is zero the wait
    is NaN or an infinity, never a finite number. *)
Theorem beat_needs_bpm (c : MidiComposition) (note : MidiNote) (b : number) :
  beat note = Some b ->
  (bpm c = None ->
     resolvedWait c note = T NaN /\
     compositionTempo (normalizeComposition c) = or_else (tempo c) (of_Z 120)) /\
  (forall z, bpm c = Some z -> is_zero z = true ->
     ~ is_finite_number (ticks_of (resolvedWait c note))).
Proof.
  intros Hb. rewrite resolvedWait_cases, Hb. split.
  - intros Hn. rewrite Hn. split.
    + unfold convertBeatToWait, ToNumber. now rewrite div_nan.
    + unfold compositionTempo. destruct (normalizeComposition_bpm c) as (-> & -> & _).
      now rewrite Hn.
  - intros z -> Hz. destruct z as [s | | |]; try discriminate.
    unfold convertBeatToWait, ToNumber.
    destruct (mul (sub b (of_Z 1)) (of_Z 128)) as [s' | s' | | s' m e]; simpl; tauto.
Qed.

Lemma beat_needs_bpm_witness :
  resolvedWait (emptyComposition None (Some (of_Z 90))) (note_on_beat (of_Z 2)) = T NaN /\
  compositionTempo (normalizeComposition (emptyComposition None (Some (of_Z 90))))
    = of_Z 90.
Proof.
  destruct (beat_needs_bpm (emptyComposition None (Some (of_Z 90)))
              (note_on_beat (of_Z 2)) (of_Z 2) eq_refl) as (H & _).
  destruct (H eq_refl) as (Hw & Ht). split; [exact Hw | exact Ht].
Defined.

(** *** Exponents after rounding *)

Lemma shr_exponent (mrs : shr_record) (e n : Z) :
  snd (shr mrs e n) = Z.max e (e + n).
Proof. unfold shr. destruct n; simpl; lia. Qed.

Lemma binary_round_aux_exponent (s : bool) (m e : Z) (l : location) :
  match binary_round_aux prec emax s m e l with
  | S754_finite _ _ e' => Z.max e (fexp prec emax (Zdigits2 m + e)) <= e'
  | _ => True
  end.
Proof.
  unfold binary_round_aux, shr_fexp.
  pose proof (shr_exponent (shr_record_of_loc m l) e
                (fexp prec emax (Zdigits2 m + e) - e)) as H1.
  destruct (shr (shr_record_of_loc m l) e (fexp prec emax (Zdigits2 m + e) - e))
    as [mrs' e']. simpl in H1.
  set (m' := round_nearest_even (shr_m mrs') (loc_of_shr_record mrs')).
  pose proof (shr_exponent (shr_record_of_loc m' loc_Exact) e'
                (fexp prec emax (Zdigits2 m' + e') - e')) as H2.
  destruct (shr (shr_record_of_loc m' loc_Exact) e'
              (fexp prec emax (Zdigits2 m' + e') - e')) as [mrs'' e'']. simpl in H2.
  destruct (shr_m mrs''); try exact I.
  destruct (e'' <=? emax - prec); [|exact I]. lia.
Qed.

(** Rounding an integer gives a number without fractional part. *)
Lemma binary_round_integer (s : bool) (p : positive) :
  no_fraction (binary_round prec emax s p 0).
Proof.
  pose proof (Z.log2_nonneg (Z.pos p)) as Hl.
  destruct (Z.le_gt_cases (Z.log2 (Z.pos p) + 1) 53) as [Hd | Hd].
  - destruct (binary_round_exact s p 0 Hd ltac:(lia)) as (mz & -> & Hm).
    right. rewrite Hm. exists (Z.pos p). f_equal. f_equal. lia.
  - unfold binary_round.
    assert (F : fexp prec emax (Z.pos (digits2_pos p) + 0)
                = Z.log2 (Z.pos p) + 1 - 53).
    { rewrite digits2_pos_log2. unfold fexp, emin, prec, emax. lia. }
    rewrite F. unfold shl_align.
    destruct (Z.log2 (Z.pos p) + 1 - 53 - 0) eqn:D; try lia.
    pose proof (binary_round_aux_exponent s (Z.pos p) 0 loc_Exact) as H.
    destruct (binary_round_aux prec emax s (Z.pos p) 0 loc_Exact); try exact I.
    left. cbn [Zdigits2] in H. rewrite Z.add_0_r in F. lia.
Qed.

Lemma Math_round_no_fraction (x : number) : no_fraction (Math_round x).
Proof.
  destruct x as [s | s | | s m e]; try exact I.
  unfold Math_round. destruct (0 <=? e) eqn:E.
  - left. now apply Z.leb_le.
  - destruct ((2 * cond_Zopp s (Z.pos m) + 2 ^ (- e)) / 2 ^ (1 - e)) as [|p|p];
      cbn [binary_normalize]; [exact I | |]; apply binary_round_integer.
Qed.

Lemma template_T_no_fraction (x : number) :
  no_fraction x -> no_fraction (ticks_of (template_T x)).
Proof. destruct x; simpl; auto. Qed.

(** X15. The wait of a note is never a fraction of a tick: whatever its
    timing fields and the tempo, the number after the letter T is a whole
    number, NaN or an infinity. *)
Theorem wait_is_whole (c : MidiComposition) (trackIndex : nat) (note : MidiNote) :
  exists w,
    eventWait (resolveNote c trackIndex note) = Some w /\ no_fraction (ticks_of w).
Proof.
  exists (resolvedWait c note). split; [apply resolveNote_wait|].
  rewrite resolvedWait_cases.
  destruct (beat note); apply template_T_no_fraction, Math_round_no_fraction.
Qed.

(** *** Exact products and quotients *)

Lemma iter_pos_Pos_iter {A : Type} (f : A -> A) (p : positive) (x : A) :
  iter_pos f p x = Pos.iter f x p.
Proof.
  revert x. induction p as [p IH | p IH |]; intros x; simpl.
  - rewrite !IH. now rewrite !Pos.iter_swap.
  - now rewrite !IH.
  - reflexivity.
Qed.

(** Shifting right the bits that a left shift added loses nothing. *)
Lemma shr_1_iter_xO (mz k : positive) :
  Pos.iter shr_1 {| shr_m := Z.pos (Pos.iter xO mz k); shr_r := false; shr_s := false |} k
  = {| shr_m := Z.pos mz; shr_r := false; shr_s := false |}.
Proof.
  induction k as [|k IH] using Pos.peano_ind.
  - reflexivity.
  - rewrite Pos.iter_succ, <- Pos.iter_swap, Pos.iter_succ. exact IH.
Qed.

Lemma binary_round_aux_shifted (s : bool) (mz k : positive) (e : Z) :
  Z.pos (digits2_pos mz) = 53 -> -1074 <= e + Z.pos k <= 971 ->
  binary_round_aux prec emax s (Z.pos (Pos.iter xO mz k)) e loc_Exact
  = S754_finite s mz (e + Z.pos k).
Proof.
  intros Hd He.
  assert (D : Zdigits2 (Z.pos (Pos.iter xO mz k)) = 53 + Z.pos k).
  { cbn [Zdigits2]. rewrite digits2_pos_log2, iter_xO_spec.
    rewrite Z.log2_mul_pow2 by lia. rewrite digits2_pos_log2 in Hd. lia. }
  unfold binary_round_aux, shr_fexp. rewrite D.
  assert (F : fexp prec emax (53 + Z.pos k + e) - e = Z.pos k)
    by (unfold fexp, emin, prec, emax; lia).
  rewrite F. cbn [shr shr_record_of_loc].
  rewrite iter_pos_Pos_iter, shr_1_iter_xO.
  cbn [shr_m loc_of_shr_record round_nearest_even Zdigits2]. rewrite Hd.
  assert (F' : fexp prec emax (53 + (e + Z.pos k)) - (e + Z.pos k) = 0)
    by (unfold fexp, emin, prec, emax; lia).
  rewrite F'. cbn [shr shr_record_of_loc shr_m].
  replace (e + Z.pos k <=? emax - prec) with true; [reflexivity|].
  symmetry. apply Z.leb_le. unfold emax, prec. lia.
Qed.

(** The representation of a non-zero integer below [2 ^ 53] in absolute
    value. *)
Lemma of_Z_exact (n : Z) :
  n <> 0 -> - 2 ^ 53 < n < 2 ^ 53 ->
  exists mz,
    of_Z n = S754_finite (n <? 0) mz (Z.log2 (Z.abs n) + 1 - 53) /\
    Z.pos mz = Z.abs n * 2 ^ (53 - (Z.log2 (Z.abs n) + 1)) /\
    Z.pos (digits2_pos mz) = 53.
Proof.
  intros Hn Hb.
  assert (G : forall s p, Z.pos p < 2 ^ 53 ->
            exists mz,
              binary_round prec emax s p 0
                = S754_finite s mz (Z.log2 (Z.pos p) + 1 - 53) /\
              Z.pos mz = Z.pos p * 2 ^ (53 - (Z.log2 (Z.pos p) + 1)) /\
              Z.pos (digits2_pos mz) = 53).
  { intros s p Hp.
    pose proof (Z.log2_nonneg (Z.pos p)) as Hl0.
    assert (Hl : Z.log2 (Z.pos p) + 1 <= 53)
      by (pose proof (Z.log2_lt_pow2 (Z.pos p) 53 ltac:(lia)); lia).
    destruct (binary_round_exact s p 0 Hl ltac:(lia)) as (mz & E & Hm).
    exists mz. split; [exact E|]. split; [exact Hm|].
    rewrite digits2_pos_log2, Hm, Z.log2_mul_pow2 by lia. lia. }
  destruct n as [|p|p]; [contradiction | |]; unfold of_Z; cbn [binary_normalize];
    apply G; lia.
Qed.

Lemma mul_half_exact (s : bool) (mz : positive) (e : Z) :
  Z.pos (digits2_pos mz) = 53 -> -1074 <= e - 1 <= 971 ->
  mul (S754_finite s mz e) (of_dyadic 1 (-1)) = S754_finite s mz (e - 1).
Proof.
  intros Hd He.
  change (of_dyadic 1 (-1)) with (S754_finite false 4503599627370496 (-53)).
  unfold mul, SFmul. rewrite xorb_false_r.
  replace (mz * 4503599627370496)%positive with (Pos.iter xO mz 52).
  - rewrite binary_round_aux_shifted by (assumption || lia). f_equal. lia.
  - apply Pos2Z.inj. rewrite iter_xO_spec, Pos2Z.inj_mul. reflexivity.
Qed.

(** X16. An integer offset is halved exactly, ties upwards: for every
    integer [n] below [2 ^ 53] in absolute value, a note without a beat
    whose [startTime] (or whose [time], when it has no [startTime]) is [n]
    waits floor((n + 1) / 2) ticks; so 10 gives 5, 3 gives 2, -1 gives 0
    and -3 gives -1. *)
Theorem integer_offset_wait (c : MidiComposition) (note : MidiNote) (n : Z) :
  beat note = None ->
  startTime note = Some (of_Z n) \/
    (startTime note = None /\ time note = Some (of_Z n)) ->
  - 2 ^ 53 < n < 2 ^ 53 ->
  resolvedWait c note = T (of_Z ((n + 1) / 2)).
Proof.
  intros Hb Hs Hn. rewrite resolvedWait_cases, Hb.
  replace (match startTime note with Some s => Some s | None => time note end)
    with (Some (of_Z n)) by (destruct Hs as [-> | [-> ->]]; reflexivity).
  destruct (Z.eq_dec n 0) as [-> | Hn0]; [reflexivity|].
  destruct (of_Z_exact n Hn0 Hn) as (mz & E & Hm & Hd).
  pose proof (Z.log2_nonneg (Z.abs n)) as Hl0.
  assert (Hl : Z.log2 (Z.abs n) + 1 <= 53)
    by (pose proof (Z.log2_lt_pow2 (Z.abs n) 53 ltac:(lia)); lia).
  set (d := Z.log2 (Z.abs n) + 1) in *.
  rewrite E. cbn [or_else truthy]. unfold offsetWait.
  rewrite mul_half_exact by (assumption || lia).
  unfold Math_round.
  destruct (Z.leb_spec 0 (d - 53 - 1)) as [H | _]; [lia|].
  assert (V : cond_Zopp (n <? 0) (Z.pos mz) = n * 2 ^ (53 - d)).
  { unfold cond_Zopp. destruct (Z.ltb_spec n 0); rewrite Hm; lia. }
  rewrite V.
  replace (2 * (n * 2 ^ (53 - d)) + 2 ^ (- (d - 53 - 1)))
    with (2 ^ (54 - d) * (n + 1)).
  2: { replace (- (d - 53 - 1)) with (54 - d) by lia.
       replace (54 - d) with (Z.succ (53 - d)) by lia.
       rewrite Z.pow_succ_r by lia. ring. }
  replace (2 ^ (1 - (d - 53 - 1))) with (2 ^ (54 - d) * 2).
  2: { replace (1 - (d - 53 - 1)) with (Z.succ (54 - d)) by lia.
       rewrite Z.pow_succ_r by lia. ring. }
  rewrite Z.div_mul_cancel_l by (try lia; apply Z.pow_nonzero; lia).
  destruct (Z.eq_dec ((n + 1) / 2) 0) as [-> | Hz]; [reflexivity|].
  assert (Hq : - 2 ^ 53 < (n + 1) / 2 < 2 ^ 53).
  { split.
    - apply Z.lt_le_trans with ((- 2 ^ 53 + 1) / 2); [reflexivity|].
      apply Z.div_le_mono; lia.
    - apply Z.div_lt_upper_bound; lia. }
  destruct (of_Z_exact _ Hz Hq) as (mq & Eq & _).
  assert (B : binary_normalize prec emax ((n + 1) / 2) 0 (n <? 0) = of_Z ((n + 1) / 2))
    by (unfold of_Z; destruct ((n + 1) / 2); [contradiction | reflexivity | reflexivity]).
  rewrite B, Eq. reflexivity.
Qed.

Lemma integer_offset_wait_witness :
  resolvedWait (emptyComposition (Some (of_Z 120)) None) note_start_minus10
    = T (of_Z (-5)).
Proof.
  apply (integer_offset_wait (emptyComposition (Some (of_Z 120)) None)
           note_start_minus10 (-10)).
  - reflexivity.
  - left. reflexivity.
  - lia.
Defined.

(** ** Progress notifications *)

Lemma div_self (s : bool) (m : positive) (e : Z) :
  div (S754_finite s m e) (S754_finite s m e) = of_Z 1.
Proof.
  unfold div, SFdiv, SFdiv_core_binary.
  replace (Zdigits2 (Z.pos m) + e - (Zdigits2 (Z.pos m) + e)) with 0 by lia.
  rewrite Z.sub_diag.
  change (Z.min (fexp prec emax 0) 0) with (-53).
  change (0 - -53) with 53.
  rewrite Z.shiftl_mul_pow2 by lia.
  pose proof (Z.div_mul (2 ^ 53) (Z.pos m) ltac:(lia)) as Hq.
  pose proof (Z.mod_mul (2 ^ 53) (Z.pos m) ltac:(lia)) as Hr.
  rewrite (Z.mul_comm (Z.pos m)).
  unfold Z.div, Z.modulo in Hq, Hr.
  destruct (Z.div_eucl (2 ^ 53 * Z.pos m) (Z.pos m)) as [q r].
  subst q r. rewrite xorb_nilpotent.
  assert (L : new_location (Z.pos m) 0 = loc_Exact)
    by (unfold new_location; destruct (Z.even (Z.pos m)); reflexivity).
  rewrite L. reflexivity.
Qed.

Lemma Math_floor_sign (x : number) : has_sign false x -> has_sign false (Math_floor x).
Proof.
  destruct x as [s | s | | s m e]; cbn [has_sign]; intros H; try contradiction; subst;
    try reflexivity.
  unfold Math_floor. destruct (0 <=? e) eqn:E; [reflexivity|].
  apply binary_normalize_nonneg. apply Z.div_pos.
  - unfold cond_Zopp. lia.
  - apply Z.pow_pos_nonneg; [lia|]. apply Z.leb_gt in E. lia.
Qed.

Lemma of_Z_positive_finite (n : Z) :
  0 < n < 2 ^ 53 -> exists m e, of_Z n = S754_finite false m e.
Proof.
  intros Hn. destruct (of_Z_exact n ltac:(lia) ltac:(lia)) as (mz & E & _).
  replace (n <? 0) with false in E by (symmetry; apply Z.ltb_ge; lia).
  eauto.
Qed.

(** X17. While the tracks are processed, one notification is sent per
    track, in track order, the k-th saying that k of the n tracks are done;
    its progress is a number that is not negative (never NaN), and the
    progress sent after the last track is exactly 100. *)
Theorem track_progress (c : MidiComposition) :
  let n := List.length (tracks c) in
  Z.of_nat n < 2 ^ 53 ->
  List.length (processMidiComposition c) = n /\
  (forall k, (k < n)%nat ->
     exists p,
       nth_error (processMidiComposition c) k
         = Some {| progress := p; message := MsgTrack (S k) n |} /\
       has_sign false p) /\
  (forall k, n = S k ->
     nth_error (processMidiComposition c) k
       = Some {| progress := of_Z 100; message := MsgTrack n n |}).
Proof.
  intros n Hn.
  assert (N : forall k, (k < n)%nat ->
            nth_error (processMidiComposition c) k =
            Some {| progress :=
                      Math_floor (mul (div (of_Z (Z.of_nat (S k))) (of_Z (Z.of_nat n)))
                                      (of_Z 100));
                    message := MsgTrack (S k) n |}).
  { intros k Hk. unfold processMidiComposition. rewrite mapi_nth_error.
    destruct (nth_error (tracks c) k) eqn:E; [reflexivity|].
    apply nth_error_None in E. fold n in E. lia. }
  split; [|split].
  - unfold processMidiComposition, mapi. now rewrite mapi_from_length.
  - intros k Hk. rewrite (N k Hk). eexists. split; [reflexivity|].
    destruct (of_Z_positive_finite (Z.of_nat n) ltac:(lia)) as (m & e & ->).
    apply Math_floor_sign.
    change (of_Z 100) with (S754_finite false 7036874417766400 (-46)).
    apply mul_finite_sign, div_finite_sign, binary_normalize_nonneg. lia.
  - intros k Hk. rewrite (N k ltac:(lia)). rewrite <- Hk.
    destruct (of_Z_positive_finite (Z.of_nat n) ltac:(lia)) as (m & e & ->).
    rewrite div_self. reflexivity.
Qed.

Lemma track_progress_witness :
  nth_error (processMidiComposition exampleComposition) 0
    = Some {| progress := of_Z 100; message := MsgTrack 1 1 |}.
Proof.
  destruct (track_progress exampleComposition) as (_ & _ & H).
  - simpl. lia.
  - apply (H 0%nat). reflexivity.
Defined.

(** X18. Chunking has no observable effect: the notifications sent while
    the tracks are processed depend on the number of tracks only, not on
    their notes, so a track above the threshold of 50 notes is reported
    like any other. *)
Theorem progress_ignores_notes (c c' : MidiComposition) :
  List.length (tracks c) = List.length (tracks c') ->
  processMidiComposition c = processMidiComposition c'.
Proof.
  intros H. unfold processMidiComposition, mapi. rewrite H.
  generalize (List.length (tracks c')) as n. generalize 0%nat as i.
  revert H. generalize (tracks c') as l'. generalize (tracks c) as l.
  induction l as [|t l IH]; intros [|t' l'] H i n; try discriminate; simpl.
  - reflexivity.
  - f_equal. apply IH. now injection H.
Qed.

Lemma progress_ignores_notes_witness :
  processMidiComposition
    {| bpm := None; tempo := None; timeSignature := None; tracks := [longTrack] |}
  = processMidiComposition exampleComposition.
Proof.
  apply progress_ignores_notes. reflexivity.
Defined.
